(** * Colour-harmony scoring: a model of [src/app/api/score/route.ts]

    The route decodes an uploaded image, clusters its pixels into [k]
    dominant colours, converts the centroids to HSV and averages a weighted
    harmony score over all pairs of centroids.

    Numbers.  A JavaScript [number] is modelled by an exact rational [Q];
    equality of numbers is [Qeq] (written [==]), the numeric [===] of the
    source is [Qeq_bool].  The rounding of IEEE doubles is outside this
    model.  A quotient whose divisor is a variable goes through [fdiv],
    which yields [None] where JavaScript would yield [NaN] or an infinity;
    quotients by a non-zero literal ([/ 255], [/ 6], [/ 100]) are plain
    rational divisions. *)

From Stdlib Require Import String QArith Qabs Qminmax Qround ZArith List
  Bool Lia Lqa Arith Permutation.
Import ListNotations.

Local Open Scope Q_scope.

(** ** Numbers *)

Module Num.

(** [a / b] for a divisor that is not a literal: [None] on a zero
    divisor (JavaScript: [NaN] for [0/0], an infinity otherwise). *)
Definition fdiv (a b : Q) : option Q :=
  if Qeq_bool b 0 then None else Some (a / b).

(** [a < b] on numbers. *)
Definition Qlt_bool (a b : Q) : bool := negb (Qle_bool b a).

(** [Math.max(a, b, c)] and [Math.min(a, b, c)]. *)
Definition max3 (a b c : Q) : Q := Qmax (Qmax a b) c.
Definition min3 (a b c : Q) : Q := Qmin (Qmin a b) c.

(** [Math.round(x)]: the nearest integer, halves towards +infinity. *)
Definition round (x : Q) : Z := Qfloor (x + (1 # 2)).

(** Bind of the option monad, for numbers that may be non-finite. *)
Definition bind {A B} (m : option A) (f : A -> option B) : option B :=
  match m with
  | Some a => f a
  | None => None
  end.

End Num.

Import Num.

Declare Scope num_scope.
Delimit Scope num_scope with num.
Notation "x <- m ;; k" := (bind m (fun x => k))
  (at level 61, m at next level, right associativity) : num_scope.
Local Open Scope num_scope.

(** ** Colour theory helpers *)

(** An HSV colour [h, s, v]. *)
Definition hsv : Type := Q * Q * Q.

(** [rgbToHsv(r, g, b)]: H in 0-360, S in 0-100, V in 0-100. *)
Definition rgbToHsv (r g b : Q) : option hsv :=
  let r := r / 255 in
  let g := g / 255 in
  let b := b / 255 in
  let max := max3 r g b in
  let min := min3 r g b in
  let h := 0 in
  let v := max in
  let d := max - min in
  s <- (if Qeq_bool max 0 then Some 0 else fdiv d max) ;;
  h <- (if negb (Qeq_bool max min) then
          h <- (if Qeq_bool max r then
                  x <- fdiv (g - b) d ;;
                  Some (x + (if Qlt_bool g b then 6 else 0))
                else if Qeq_bool max g then
                  x <- fdiv (b - r) d ;; Some (x + 2)
                else if Qeq_bool max b then
                  x <- fdiv (r - g) d ;; Some (x + 4)
                else Some h) ;;
          Some (h / 6)
        else Some h) ;;
  Some (h * 360, s * 100, v * 100).

(** [calculateHueScore(h1, h2)]. *)
Definition calculateHueScore (h1 h2 : Q) : Q :=
  let diff := Qmin (Qabs (h1 - h2)) (360 - Qabs (h1 - h2)) in
  if Qle_bool diff 30 then 100
  else if Qle_bool 150 diff && Qle_bool diff 210 then 90
  else Qmax 0 (60 - diff).

(** The two stages of [calculateHueScore]: the circular distance [diff]
    and the three [return]s that depend on it alone
    ([calculateHueScore_stages]). *)
Definition hueDiff (h1 h2 : Q) : Q :=
  Qmin (Qabs (h1 - h2)) (360 - Qabs (h1 - h2)).

Definition hueBands (diff : Q) : Q :=
  if Qle_bool diff 30 then 100
  else if Qle_bool 150 diff && Qle_bool diff 210 then 90
  else Qmax 0 (60 - diff).

(** [calculateValueScore(v1, v2)]. *)
Definition calculateValueScore (v1 v2 : Q) : Q :=
  (Qabs (v1 - v2) / 100) * 100.

(** [calculateSaturationScore(s1, s2)]. *)
Definition calculateSaturationScore (s1 s2 : Q) : Q :=
  100 - (Qabs (s1 - s2) / 100) * 100.

(** ** The request, the response and the external collaborators *)

(** A byte buffer: every element is in 0..255. *)
Definition bytes : Type := list Z.

(** A thrown JavaScript error, with its message. *)
Inductive exn : Type :=
| TypeError (msg : string)
| Error (msg : string).

(** The value of a form field: an uploaded [File] (its content) or a
    string. *)
Inductive FormDataEntryValue : Type :=
| EntryFile (content : bytes)
| EntryString (s : string).

Definition FormData : Type := list (string * FormDataEntryValue).

(** A request: [formData] is what [await request.formData()] gives, a
    thrown error when the body cannot be parsed as form data. *)
Record Request : Type := { formData : exn + FormData }.

(** [formData.get(name)]: the first value of that name, or [null]. *)
Fixpoint get (fd : FormData) (name : string) : option FormDataEntryValue :=
  match fd with
  | [] => None
  | (n, v) :: rest => if String.eqb n name then Some v else get rest name
  end.

(** [!file] for [file = formData.get('file')]: [null] and the empty
    string are falsy, a [File] and a non-empty string are truthy. *)
Definition falsy (file : option FormDataEntryValue) : bool :=
  match file with
  | None => true
  | Some (EntryString s) => String.eqb s EmptyString
  | Some (EntryFile _) => false
  end.

(** [info] of sharp's raw output; [channels] has type [1 | 2 | 3 | 4] in
    sharp's declarations, hence is positive. *)
Record OutputInfo : Type :=
  { width : nat; height : nat; channels : positive }.

(** A pixel [[data[i], data[i + 1], data[i + 2]]]; an index past the end
    of the buffer reads [undefined], here [None]. *)
Definition pixel : Type := option Z * option Z * option Z.

(** A centroid of the clustering: an RGB triple, possibly fractional.
    The points given to the clustering all have three coordinates, and so
    has each row of [result.centroids]. *)
Definition centroid : Type := Q * Q * Q.

(** The body of a JSON response with its status: [{ score, colors }]
    (status 200; a non-finite score is [None]) or [{ error }]. *)
Inductive Response : Type :=
| ScoreResult (score : option Q) (colors : list (list Z))
| ErrorResult (error : string) (status : Z).

(** The computation inside [try]: a thrown error or a value. *)
Definition result (A : Type) : Type := (exn + A)%type.

Definition tbind {A B} (m : result A) (f : A -> result B) : result B :=
  match m with
  | inl e => inl e
  | inr a => f a
  end.

Declare Scope try_scope.
Delimit Scope try_scope with try.
Notation "x <-! m ;; k" := (tbind m (fun x => k))
  (at level 61, m at next level, right associativity) : try_scope.
Local Open Scope try_scope.

(** ** Pixel extraction *)

(** The loop [for (let i = 0; i < data.length; i += info.channels)
    pixels.push([data[i], data[i + 1], data[i + 2]])], started at [i] with
    [pixels] already collected.  [fuel] bounds the number of iterations;
    [pixelLoop_fuel] shows that [length data] iterations always suffice. *)
Fixpoint pixelLoop (fuel : nat) (data : bytes) (channels : positive)
    (i : nat) (pixels : list pixel) : list pixel :=
  if (i <? length data)%nat then
    match fuel with
    | O => pixels
    | S fuel' =>
        pixelLoop fuel' data channels (i + Pos.to_nat channels)
          (pixels ++ [(nth_error data i, nth_error data (i + 1),
                       nth_error data (i + 2))])
    end
  else pixels.

Definition extractPixels (data : bytes) (channels : positive) : list pixel :=
  pixelLoop (length data) data channels 0 [].

(** ** Pair enumeration and scoring *)

(** [weights = { hue: 0.5, value: 0.3, saturation: 0.2 }]. *)
Record Weights : Type := { hue : Q; value : Q; saturation : Q }.

Definition weights : Weights :=
  {| hue := 0.5; value := 0.3; saturation := 0.2 |}.

(** [Array.from({ length: k }, (_, i) => i)]. *)
Definition colorIndicesOf (k : nat) : list nat := seq 0 k.

(** The two nested loops that push [[colorIndices[i], colorIndices[j]]]
    for [i < j < colorIndices.length]. *)
Definition colorPairsOf (colorIndices : list nat) : list (nat * nat) :=
  flat_map
    (fun i =>
       map (fun j => (nth i colorIndices O, nth j colorIndices O))
         (seq (i + 1) (length colorIndices - (i + 1))))
    (seq 0 (length colorIndices)).

(** [pairScore] of the [forEach] callback, for two HSV colours. *)
Definition pairScore (c1 c2 : hsv) : Q :=
  let '(h1, s1, v1) := c1 in
  let '(h2, s2, v2) := c2 in
  let hueScore := calculateHueScore h1 h2 in
  let valueScore := calculateValueScore v1 v2 in
  let saturationScore := calculateSaturationScore s1 s2 in
  (hueScore * hue weights) + (valueScore * value weights)
  + (saturationScore * saturation weights).

(** One call of the [forEach] callback: destructuring
    [dominantHsvs[pair[0]]] throws a [TypeError] when the index is out of
    range; otherwise [totalScore += pairScore]. *)
Definition forEachStep (dominantHsvs : list (option hsv))
    (totalScore : option Q) (pair : nat * nat) : result (option Q) :=
  match nth_error dominantHsvs (fst pair) with
  | None => inl (TypeError "undefined is not iterable"%string)
  | Some c1 =>
      match nth_error dominantHsvs (snd pair) with
      | None => inl (TypeError "undefined is not iterable"%string)
      | Some c2 =>
          inr (t <- totalScore ;; a <- c1 ;; b <- c2 ;;
               Some (t + pairScore a b))%num
      end
  end.

(** [colorPairs.forEach(...)] over the running [totalScore]. *)
Fixpoint forEachPair (dominantHsvs : list (option hsv))
    (colorPairs : list (nat * nat)) (totalScore : option Q)
    : result (option Q) :=
  match colorPairs with
  | [] => inr totalScore
  | p :: rest =>
      t <-! forEachStep dominantHsvs totalScore p ;;
      forEachPair dominantHsvs rest t
  end.

(** [c.map(Math.round)] for one centroid. *)
Definition roundColor (c : centroid) : list Z :=
  let '(r, g, b) := c in [round r; round g; round b].

(** [Math.round(finalScore * 100) / 100]. *)
Definition round2 (finalScore : Q) : Q :=
  inject_Z (round (finalScore * 100)) / 100.

(** [totalScore] after the [forEach], then
    [finalScore = totalScore / colorPairs.length]: the final score in
    full precision. *)
Definition finalScoreOf (dominantHsvs : list (option hsv))
    (colorPairs : list (nat * nat)) : result (option Q) :=
  totalScore <-! forEachPair dominantHsvs colorPairs (Some 0) ;;
  inr (t <- totalScore ;;
       fdiv t (inject_Z (Z.of_nat (length colorPairs))))%num.

(** The callback [rgb => rgbToHsv(rgb[0], rgb[1], rgb[2])]. *)
Definition toHsv (rgb : centroid) : option hsv :=
  let '(r, g, b) := rgb in rgbToHsv r g b.

(** Steps 3 to 5 of the handler, from the centroids on: the conversion
    to HSV, the pairs, the average and the response.  The source fixes
    [k = 3]; [k] is a parameter here. *)
Definition scoreCentroids (k : nat) (dominantRgbs : list centroid)
    : result Response :=
  let dominantHsvs := map toHsv dominantRgbs in
  let colorIndices := colorIndicesOf k in
  let colorPairs := colorPairsOf colorIndices in
  if (length colorPairs =? 0)%nat then
    inr (ScoreResult (Some 100) (map roundColor dominantRgbs))
  else
    finalScore <-! finalScoreOf dominantHsvs colorPairs ;;
    inr (ScoreResult (option_map round2 finalScore)
           (map roundColor dominantRgbs)).

(** ** The handler *)

Section Handler.

(** The state outside the request that an unseeded clustering would draw
    its random numbers from. *)
Variable World : Type.

(** [sharp(imageBuffer).resize(100, 100).raw().toBuffer(...)]: the raw
    samples and their [info], or a thrown error. *)
Variable sharp : bytes -> result (bytes * OutputInfo).

(** [kmeans(pixels, k, { seed })] of ml-kmeans, returning
    [result.centroids], or a thrown error. *)
Variable kmeans :
  World -> list pixel -> nat -> option Z -> result (list centroid).

(** The body of the [try] block, for a number [k] of colours. *)
Definition tryBlock (k : nat) (w : World) (request : Request)
    : result Response :=
  fd <-! formData request ;;
  let file := get fd "file"%string in
  if falsy file then inr (ErrorResult "File is required."%string 400)
  else
    match file with
    | Some (EntryFile content) =>
        let imageBuffer := content in
        raw <-! sharp imageBuffer ;;
        let '(data, info) := raw in
        let pixels := extractPixels data (channels info) in
        dominantRgbs <-! kmeans w pixels k (Some 42%Z) ;;
        scoreCentroids k dominantRgbs
    | _ => inl (TypeError "file.arrayBuffer is not a function"%string)
    end.

(** What the handler does: its response and what [console.error]
    logged. *)
Definition handle (k : nat) (w : World) (request : Request)
    : Response * option exn :=
  match tryBlock k w request with
  | inr response => (response, None)
  | inl error =>
      (ErrorResult "Failed to process image."%string 500, Some error)
  end.

(** [POST(request)], with [const k = 3]. *)
Definition POST (w : World) (request : Request) : Response * option exn :=
  handle 3 w request.

(** The request carries a file that the decoder turned into the raw
    samples [data] with their [info]. *)
Definition Decoded (request : Request) (data : bytes) (info : OutputInfo)
    : Prop :=
  exists fd content,
    formData request = inr fd /\
    get fd "file"%string = Some (EntryFile content) /\
    sharp content = inr (data, info).

(** The handler reached the clustering, which returned
    [dominantRgbs]. *)
Definition Clustered (k : nat) (w : World) (request : Request)
    (dominantRgbs : list centroid) : Prop :=
  exists data info,
    Decoded request data info /\
    kmeans w (extractPixels data (channels info)) k (Some 42%Z)
    = inr dominantRgbs.

End Handler.

(** The two error responses of the handler. *)
Definition MissingInput : Response :=
  ErrorResult "File is required."%string 400.

Definition ProcessingFailure : Response :=
  ErrorResult "Failed to process image."%string 500.

(** ** The words of the specification *)

(** The sum and the arithmetic mean of a list of numbers. *)
Definition Qsum (l : list Q) : Q := fold_right Qplus 0 l.

Definition mean (l : list Q) : Q :=
  Qsum l / inject_Z (Z.of_nat (length l)).

(** All unordered pairs of two distinct positions of a list, each once:
    every element is paired with every later one. *)
Fixpoint unorderedPairs {A : Type} (l : list A) : list (A * A) :=
  match l with
  | [] => []
  | x :: rest => map (fun y => (x, y)) rest ++ unorderedPairs rest
  end.

(** The pair scores of a list of HSV colours, over all unordered pairs. *)
Definition pairScores (colours : list hsv) : list Q :=
  map (fun p => pairScore (fst p) (snd p)) (unorderedPairs colours).

(** The colour at a position of the list of HSV colours. *)
Definition colourAt (colours : list hsv) (i : nat) : hsv :=
  nth i colours (0, 0, 0).

(** An HSV colour within its ranges. *)
Definition hsvInRange (c : hsv) : Prop :=
  let '(h, s, v) := c in 0 <= h < 360 /\ 0 <= s <= 100 /\ 0 <= v <= 100.

(** A channel, and a centroid, within the range of a byte. *)
Definition inByteRange (c : Q) : Prop := 0 <= c <= 255.

Definition centroidInRange (c : centroid) : Prop :=
  let '(r, g, b) := c in inByteRange r /\ inByteRange g /\ inByteRange b.

(** Two raw RGBA buffers that agree on the R, G and B samples of every
    pixel [p]; the sample at [4 * p + 3] is the alpha. *)
Definition sameRgb (data1 data2 : bytes) : Prop :=
  length data1 = length data2 /\
  forall p c : nat,
    (c < 3)%nat -> nth_error data1 (4 * p + c) = nth_error data2 (4 * p + c).

(** The pixel that the extraction loop pushes at index [i]. *)
Definition pixelAt (data : bytes) (i : nat) : pixel :=
  (nth_error data i, nth_error data (i + 1), nth_error data (i + 2)).

(** The three samples of a pixel, in order. *)
Definition samples (p : pixel) : list (option Z) :=
  let '(r, g, b) := p in [r; g; b].

(** ** The page that calls the route

    [HomePage] of the client: its five state cells and its two event
    handlers.  A handler is modelled as one run, from the event to its
    last state update. *)

Module Page.

(** A [File] chosen in the browser: its content. *)
Definition File : Type := bytes.

(** The JSON body of a response.  The source types the parsed body as
    [ScoreResult]; the annotation is not checked at run time, so the
    [result] cell holds whichever body arrived. *)
Inductive Json : Type :=
| JsonScore (score : option Q) (colors : list (list Z))
| JsonError (error : string).

(** The cells [file], [previewUrl], [result], [isLoading], [error]. *)
Record State : Type :=
  { file : option File;
    previewUrl : option string;
    result : option Json;
    isLoading : bool;
    error : option string }.

(** The initial values given to [useState]. *)
Definition initial : State :=
  {| file := None; previewUrl := None; result := None;
     isLoading := false; error := None |}.

Definition setFile (x : option File) (st : State) : State :=
  {| file := x; previewUrl := previewUrl st; result := result st;
     isLoading := isLoading st; error := error st |}.

Definition setPreviewUrl (x : option string) (st : State) : State :=
  {| file := file st; previewUrl := x; result := result st;
     isLoading := isLoading st; error := error st |}.

Definition setResult (x : option Json) (st : State) : State :=
  {| file := file st; previewUrl := previewUrl st; result := x;
     isLoading := isLoading st; error := error st |}.

Definition setIsLoading (x : bool) (st : State) : State :=
  {| file := file st; previewUrl := previewUrl st; result := result st;
     isLoading := x; error := error st |}.

Definition setError (x : option string) (st : State) : State :=
  {| file := file st; previewUrl := previewUrl st; result := result st;
     isLoading := isLoading st; error := x |}.

(** A caught value: an [Error] with its message, or anything else. *)
Inductive Thrown : Type :=
| ThrownError (message : string)
| ThrownOther.

(** What [fetch] resolves to: [response.ok] and what
    [await response.json()] gives. *)
Record FetchResponse : Type :=
  { ok : bool; json : Thrown + Json }.

(** What one run of [handleSubmit] did: the form data it sent, if any,
    the state while the request was in flight, and the state at its
    end. *)
Record Submission : Type :=
  { sent : option FormData; pending : option State; final : State }.

Section Handlers.

(** [URL.createObjectURL]. *)
Variable createObjectURL : File -> string.

(** [fetch('/api/score', { method: 'POST', body: formData })]: a
    response, or a rejection. *)
Variable fetch : FormData -> Thrown + FetchResponse.

(** [handleFileChange(e)], for [e.target.files]. *)
Definition handleFileChange (files : option (list File)) (st : State)
    : State :=
  match files with
  | Some (selectedFile :: _) =>
      setError None
        (setResult None
           (setPreviewUrl (Some (createObjectURL selectedFile))
              (setFile (Some selectedFile) st)))
  | _ => st
  end.

(** The [try] block of [handleSubmit]: the parsed body, or what was
    thrown. *)
Definition request (formData : FormData) : Thrown + Json :=
  match fetch formData with
  | inl err => inl err
  | inr response =>
      if negb (ok response)
      then inl (ThrownError "解析に失敗しました。")
      else json response
  end.

(** [err instanceof Error ? err.message : '...'] of the [catch]. *)
Definition messageOf (err : Thrown) : string :=
  match err with
  | ThrownError message => message
  | ThrownOther => "不明なエラーが発生しました。"
  end.

(** [handleSubmit(e)]. *)
Definition handleSubmit (st : State) : Submission :=
  match file st with
  | None =>
      {| sent := None; pending := None;
         final := setError (Some "画像ファイルを選択してください。"%string) st |}
  | Some f =>
      let st1 := setError None (setResult None (setIsLoading true st)) in
      let formData := [("file"%string, EntryFile f)] in
      let st2 :=
        match request formData with
        | inr data => setResult (Some data) st1
        | inl err => setError (Some (messageOf err)) st1
        end in
      {| sent := Some formData; pending := Some st1;
         final := setIsLoading false st2 |}
  end.

End Handlers.

(** [disabled={!file || isLoading}] of the submit button. *)
Definition submitDisabled (st : State) : bool :=
  match file st with
  | None => true
  | Some _ => isLoading st
  end.

(** [{error && ...}]: the error box is rendered for a non-empty
    message. *)
Definition errorShown (st : State) : bool :=
  match error st with
  | Some message => negb (String.eqb message EmptyString)
  | None => false
  end.

(** [{result && ...}]: the result box is rendered for a parsed body. *)
Definition resultShown (st : State) : bool :=
  match result st with
  | Some _ => true
  | None => false
  end.

End Page.

(** The response of the route as [fetch] resolves it on the page:
    [response.ok] is a status from 200 to 299, and the body parses to the
    JSON that [NextResponse.json] was given. *)
Definition fetched (response : Response) : Page.FetchResponse :=
  match response with
  | ScoreResult score colors =>
      {| Page.ok := true; Page.json := inr (Page.JsonScore score colors) |}
  | ErrorResult error status =>
      {| Page.ok := (200 <=? status)%Z && (status <=? 299)%Z;
         Page.json := inr (Page.JsonError error) |}
  end.

(** ** Stand-ins for the collaborators, to run the handler on examples *)

Module Double.

(** The ambient state is a counter. *)
Definition World : Type := nat.

(** A decoder that takes the upload to be raw RGBA samples already and
    rejects an empty one. *)
Definition sharp (imageBuffer : bytes) : result (bytes * OutputInfo) :=
  match imageBuffer with
  | [] => inl (Error "Input buffer is empty"%string)
  | _ => inr (imageBuffer,
              {| width := length imageBuffer / 4; height := 1;
                 channels := 4 |})
  end.

Definition channelOf (c : option Z) : Q :=
  match c with
  | Some z => inject_Z z
  | None => 0
  end.

Definition centroidOf (p : pixel) : centroid :=
  let '(r, g, b) := p in (channelOf r, channelOf g, channelOf b).

(** A clustering that takes the first [k] points as centroids when it
    is seeded, and skips as many points as the ambient counter says
    when it is not. *)
Definition kmeans (w : World) (pixels : list pixel) (k : nat)
    (seed : option Z) : result (list centroid) :=
  let points :=
    match seed with
    | Some _ => pixels
    | None => skipn w pixels
    end in
  if (length points <? k)%nat then inl (Error "K exceeds the number of points")
  else inr (map centroidOf (firstn k points)).

(** Three pixels: red, cyan, red, with differing alpha. *)
Definition redCyanRed : bytes :=
  [255; 0; 0; 255; 0; 255; 255; 128; 255; 0; 0; 7]%Z.

Definition upload (content : bytes) : Request :=
  {| formData := inr [("file"%string, EntryFile content)] |}.

End Double.

(** * Properties *)

(** ** Helper facts on numbers *)

Lemma Qle_bool_false (x y : Q) : Qle_bool x y = false <-> y < x.
Proof.
  split; intro H.
  - apply Qnot_le_lt. intro Hle. apply Qle_bool_iff in Hle. congruence.
  - destruct (Qle_bool x y) eqn:E; [|reflexivity].
    apply Qle_bool_iff in E. exfalso. apply (Qlt_not_le _ _ H E).
Qed.

Lemma Qmin_cases (a b : Q) :
  (a <= b /\ Qmin a b == a) \/ (b <= a /\ Qmin a b == b).
Proof.
  destruct (Q.min_spec a b) as [[H1 H2]|[H1 H2]]; [left|right]; split;
    auto using Qlt_le_weak.
Qed.

Lemma Qmax_cases (a b : Q) :
  (b <= a /\ Qmax a b == a) \/ (a <= b /\ Qmax a b == b).
Proof.
  destruct (Q.max_spec a b) as [[H1 H2]|[H1 H2]]; [right|left]; split;
    auto using Qlt_le_weak.
Qed.

Lemma Qabs_cases (x : Q) :
  (0 <= x /\ Qabs x == x) \/ (x <= 0 /\ Qabs x == - x).
Proof.
  destruct (Qlt_le_dec x 0) as [H|H].
  - right. split; [lra|]. apply Qabs_neg. lra.
  - left. split; [assumption|]. apply Qabs_pos. assumption.
Qed.

Lemma calculateHueScore_stages (h1 h2 : Q) :
  calculateHueScore h1 h2 = hueBands (hueDiff h1 h2).
Proof. reflexivity. Qed.

Lemma hueDiff_sym (h1 h2 : Q) : hueDiff h1 h2 = hueDiff h2 h1.
Proof. unfold hueDiff. now rewrite (Qabs_Qminus h1 h2). Qed.

Lemma hueDiff_range (h1 h2 : Q) :
  0 <= h1 < 360 -> 0 <= h2 < 360 -> 0 <= hueDiff h1 h2 <= 180.
Proof.
  intros [? ?] [? ?]. unfold hueDiff.
  destruct (Qabs_cases (h1 - h2)) as [[? Ha]|[? Ha]];
    destruct (Qmin_cases (Qabs (h1 - h2)) (360 - Qabs (h1 - h2)))
      as [[? Hm]|[? Hm]]; rewrite Hm; lra.
Qed.

Lemma hueBands_low (d : Q) : d <= 30 -> hueBands d = 100.
Proof.
  intro H. unfold hueBands. apply Qle_bool_iff in H. now rewrite H.
Qed.

Lemma hueBands_complementary (d : Q) :
  150 <= d <= 210 -> hueBands d = 90.
Proof.
  intros [H1 H2]. unfold hueBands.
  assert (Qle_bool d 30 = false) as -> by (apply Qle_bool_false; lra).
  apply Qle_bool_iff in H1, H2. now rewrite H1, H2.
Qed.

Lemma hueBands_otherwise (d : Q) :
  ~ d <= 30 -> ~ 150 <= d <= 210 -> hueBands d = Qmax 0 (60 - d).
Proof.
  intros H1 H2. unfold hueBands.
  destruct (Qle_bool d 30) eqn:E1.
  - apply Qle_bool_iff in E1. contradiction.
  - destruct (Qle_bool 150 d) eqn:E2, (Qle_bool d 210) eqn:E3; simpl;
      try reflexivity.
    apply Qle_bool_iff in E2, E3. exfalso. apply H2. split; assumption.
Qed.

(** C2: for hues in [0,360) the circular distance
    [d = min(|h1-h2|, 360-|h1-h2|)] lies in [0,180] and the score is 100
    for [d <= 30], 90 for [150 <= d <= 210] and [max(0, 60 - d)]
    otherwise; the rule on distances gives 100 at 30, 90 at 150 and at
    210, 0 at 211 and 29 at 31; the score is symmetric in the hues. *)
Theorem calculateHueScore_bands (h1 h2 : Q) :
  0 <= h1 < 360 -> 0 <= h2 < 360 ->
  let d := Qmin (Qabs (h1 - h2)) (360 - Qabs (h1 - h2)) in
  0 <= d <= 180 /\
  calculateHueScore h1 h2 = hueBands d /\
  (d <= 30 -> calculateHueScore h1 h2 = 100) /\
  (150 <= d <= 210 -> calculateHueScore h1 h2 = 90) /\
  (~ d <= 30 -> ~ 150 <= d <= 210 ->
   calculateHueScore h1 h2 = Qmax 0 (60 - d)) /\
  calculateHueScore h1 h2 = calculateHueScore h2 h1 /\
  hueBands 30 = 100 /\ hueBands 150 = 90 /\ hueBands 210 = 90 /\
  hueBands 211 = 0 /\ hueBands 31 = 29.
Proof.
  intros Hh1 Hh2 d.
  pose proof (hueDiff_range h1 h2 Hh1 Hh2) as Hd.
  repeat split; try reflexivity; try apply Hd.
  - apply hueBands_low.
  - apply hueBands_complementary.
  - apply hueBands_otherwise.
  - rewrite !calculateHueScore_stages. now rewrite hueDiff_sym.
Qed.

Lemma calculateHueScore_bands_witness :
  (0 <= 10 < 360) /\ (0 <= 200 < 360) /\ calculateHueScore 10 200 = 90.
Proof.
  assert (H1 : 0 <= 10 < 360) by (split; lra).
  assert (H2 : 0 <= 200 < 360) by (split; lra).
  split; [exact H1|split; [exact H2|]].
  destruct (calculateHueScore_bands 10 200 H1 H2) as (_ & _ & _ & H & _).
  apply H. vm_compute. split; discriminate.
Defined.
(** ** Conversion to HSV *)

Lemma fdiv_nonzero (a b : Q) : ~ b == 0 -> fdiv a b = Some (a / b).
Proof.
  intro H. unfold fdiv. destruct (Qeq_bool b 0) eqn:E; [|reflexivity].
  apply Qeq_bool_iff in E. contradiction.
Qed.

Lemma max3_upper (a b c : Q) :
  a <= max3 a b c /\ b <= max3 a b c /\ c <= max3 a b c.
Proof.
  unfold max3.
  destruct (Qmax_cases a b) as [[? E1]|[? E1]];
    destruct (Qmax_cases (Qmax a b) c) as [[? E2]|[? E2]];
    rewrite E2; try rewrite E1; repeat split; lra.
Qed.

Lemma min3_lower (a b c : Q) :
  min3 a b c <= a /\ min3 a b c <= b /\ min3 a b c <= c.
Proof.
  unfold min3.
  destruct (Qmin_cases a b) as [[? E1]|[? E1]];
    destruct (Qmin_cases (Qmin a b) c) as [[? E2]|[? E2]];
    rewrite E2; try rewrite E1; repeat split; lra.
Qed.

Lemma max3_attained (a b c : Q) :
  max3 a b c == a \/ max3 a b c == b \/ max3 a b c == c.
Proof.
  unfold max3.
  destruct (Qmax_cases a b) as [[? E1]|[? E1]];
    destruct (Qmax_cases (Qmax a b) c) as [[? E2]|[? E2]];
    rewrite E2; try rewrite E1; auto with qarith.
Qed.

Lemma min3_attained (a b c : Q) :
  min3 a b c == a \/ min3 a b c == b \/ min3 a b c == c.
Proof.
  unfold min3.
  destruct (Qmin_cases a b) as [[? E1]|[? E1]];
    destruct (Qmin_cases (Qmin a b) c) as [[? E2]|[? E2]];
    rewrite E2; try rewrite E1; auto with qarith.
Qed.

Lemma Qdiv_within (a d : Q) : 0 < d -> - d <= a <= d -> -1 <= a / d <= 1.
Proof.
  intros Hd [H1 H2]. split.
  - apply Qle_shift_div_l; [assumption|lra].
  - apply Qle_shift_div_r; [assumption|lra].
Qed.

Lemma Qdiv_negative (a d : Q) : 0 < d -> a < 0 -> a / d < 0.
Proof. intros Hd Ha. apply Qlt_shift_div_r; [assumption|lra]. Qed.

Lemma Qdiv_nonnegative (a d : Q) : 0 < d -> 0 <= a -> 0 <= a / d.
Proof. intros Hd Ha. apply Qle_shift_div_l; [assumption|lra]. Qed.


(** Quotients by the literals of the source, put in a form [lra] reads. *)
Ltac literal_quotients :=
  unfold Qdiv in *;
  change (/ 255) with (1 # 255) in *;
  change (/ 6) with (1 # 6) in *;
  change (/ 100) with (1 # 100) in *.

Lemma channel_normalised (c : Q) : 0 <= c <= 255 -> 0 <= c / 255 <= 1.
Proof. intros. literal_quotients. lra. Qed.

(** The hue, saturation and value that [rgbToHsv] returns are in range
    whenever the channels are in [0,255]. *)
Lemma rgbToHsv_range (r g b : Q) :
  0 <= r <= 255 -> 0 <= g <= 255 -> 0 <= b <= 255 ->
  exists h s v,
    rgbToHsv r g b = Some (h, s, v) /\
    0 <= h < 360 /\ 0 <= s <= 100 /\ 0 <= v <= 100.
Proof.
  intros Hr Hg Hb. unfold rgbToHsv.
  apply channel_normalised in Hr, Hg, Hb.
  set (R := r / 255) in *. set (G := g / 255) in *. set (B := b / 255) in *.
  destruct (max3_upper R G B) as (HMr & HMg & HMb).
  destruct (min3_lower R G B) as (Hmr & Hmg & Hmb).
  pose proof (max3_attained R G B) as HMa.
  pose proof (min3_attained R G B) as Hma.
  set (M := max3 R G B) in *. set (m := min3 R G B) in *.
  assert (HM01 : 0 <= M <= 1) by (destruct HMa as [E|[E|E]]; rewrite E; lra).
  assert (Hm01 : 0 <= m <= M) by (destruct Hma as [E|[E|E]]; rewrite E; lra).
  (* saturation *)
  assert (Hs : exists s, (if Qeq_bool M 0 then Some 0 else fdiv (M - m) M)
                         = Some s /\ 0 <= s <= 1).
  { destruct (Qeq_bool M 0) eqn:E0.
    - exists 0. split; [reflexivity|lra].
    - apply Qeq_bool_neq in E0. rewrite (fdiv_nonzero _ _ E0).
      eexists. split; [reflexivity|].
      assert (0 < M) by (destruct (Qlt_le_dec 0 M); [assumption|];
                         exfalso; apply E0; lra).
      split.
      + apply Qdiv_nonnegative; lra.
      + apply Qle_shift_div_r; lra. }
  destruct Hs as (s & -> & Hs). cbn [bind].
  (* hue *)
  destruct (Qeq_bool M m) eqn:Emm; cbn [negb bind].
  - exists (0 * 360), (s * 100), (M * 100).
    split; [reflexivity|]. lra.
  - apply Qeq_bool_neq in Emm.
    assert (Hd : 0 < M - m).
    { destruct (Qlt_le_dec 0 (M - m)); [assumption|].
      exfalso. apply Emm. lra. }
    assert (Hd0 : ~ M - m == 0) by lra.
    rewrite !(fdiv_nonzero _ _ Hd0).
    destruct (Qeq_bool M R) eqn:ER; [|destruct (Qeq_bool M G) eqn:EG;
      [|destruct (Qeq_bool M B) eqn:EB]]; cbn [bind].
    + apply Qeq_bool_iff in ER.
      eexists _, _, _. split; [reflexivity|].
      pose proof (Qdiv_within (G - B) (M - m) Hd) as Hx.
      unfold Qlt_bool. destruct (Qle_bool B G) eqn:Elt; cbn [negb].
      * apply Qle_bool_iff in Elt.
        pose proof (Qdiv_nonnegative (G - B) (M - m) Hd) as Hx0.
        set (x := (G - B) / (M - m)) in *. literal_quotients. lra.
      * apply Qle_bool_false in Elt.
        pose proof (Qdiv_negative (G - B) (M - m) Hd) as Hx0.
        set (x := (G - B) / (M - m)) in *. literal_quotients. lra.
    + eexists _, _, _. split; [reflexivity|].
      pose proof (Qdiv_within (B - R) (M - m) Hd) as Hx.
      set (x := (B - R) / (M - m)) in *. literal_quotients. lra.
    + eexists _, _, _. split; [reflexivity|].
      pose proof (Qdiv_within (R - G) (M - m) Hd) as Hx.
      set (x := (R - G) / (M - m)) in *. literal_quotients. lra.
    + eexists _, _, _. split; [reflexivity|]. literal_quotients. lra.
Qed.

(** [rgbToHsv] never divides by zero: it returns a colour for every
    input. *)
Lemma rgbToHsv_total (r g b : Q) : exists c, rgbToHsv r g b = Some c.
Proof.
  unfold rgbToHsv.
  set (R := r / 255). set (G := g / 255). set (B := b / 255).
  set (M := max3 R G B). set (m := min3 R G B).
  assert (Hs : exists s, (if Qeq_bool M 0 then Some 0 else fdiv (M - m) M)
                         = Some s).
  { destruct (Qeq_bool M 0) eqn:E0; [now exists 0|].
    apply Qeq_bool_neq in E0. rewrite (fdiv_nonzero _ _ E0). now eexists. }
  destruct Hs as (s & ->). cbn [bind].
  destruct (Qeq_bool M m) eqn:Emm; cbn [negb bind]; [now eexists|].
  apply Qeq_bool_neq in Emm.
  assert (Hd0 : ~ M - m == 0) by (intro E; apply Emm; lra).
  rewrite !(fdiv_nonzero _ _ Hd0).
  destruct (Qeq_bool M R); [|destruct (Qeq_bool M G);
    [|destruct (Qeq_bool M B)]]; cbn [bind]; now eexists.
Qed.

(** When the largest normalised channel is 0 the saturation is 0. *)
Lemma rgbToHsv_black_saturation (r g b h s v : Q) :
  max3 (r / 255) (g / 255) (b / 255) == 0 ->
  rgbToHsv r g b = Some (h, s, v) -> s == 0.
Proof.
  intros HM. unfold rgbToHsv.
  apply Qeq_bool_iff in HM. rewrite HM. cbn [bind].
  match goal with
  | |- bind ?hue _ = _ -> _ => destruct hue as [h'|]
  end; cbn [bind]; [|discriminate].
  intros [= _ <- _]. lra.
Qed.

(** A grey input has hue 0 and saturation 0. *)
Lemma rgbToHsv_achromatic (r g b h s v : Q) :
  r == g -> g == b -> rgbToHsv r g b = Some (h, s, v) -> h == 0 /\ s == 0.
Proof.
  intros Hrg Hgb. unfold rgbToHsv.
  assert (HG : g / 255 == r / 255) by (now rewrite Hrg).
  assert (HB : b / 255 == r / 255) by (now rewrite Hrg, Hgb).
  set (R := r / 255) in *. set (G := g / 255) in *. set (B := b / 255) in *.
  pose proof (max3_attained R G B) as HMa.
  pose proof (min3_attained R G B) as Hma.
  set (M := max3 R G B) in *. set (m := min3 R G B) in *.
  assert (HM : M == R) by (destruct HMa as [E|[E|E]]; rewrite E; lra).
  assert (Hm : m == R) by (destruct Hma as [E|[E|E]]; rewrite E; lra).
  assert (Emm : Qeq_bool M m = true) by (apply Qeq_bool_iff; lra).
  rewrite Emm. cbn [negb].
  destruct (Qeq_bool M 0) eqn:E0; cbn [bind].
  - intros [= <- <- _]. split; lra.
  - apply Qeq_bool_neq in E0. rewrite (fdiv_nonzero _ _ E0). cbn [bind].
    intros [= <- <- _]. split; [lra|].
    assert (Hq : (M - m) / M == 0) by (field_simplify_eq; [lra|assumption]).
    rewrite Hq. lra.
Qed.



(** ** The pairs and the mean *)

Local Open Scope nat_scope.

Lemma map_nth_positions {A : Type} (l : list A) (d : A) :
  map (fun i => nth i l d) (seq 0 (length l)) = l.
Proof.
  induction l as [|x l IH]; [reflexivity|].
  cbn [length seq map nth]. f_equal.
  rewrite <- seq_shift, map_map. exact IH.
Qed.

Lemma unorderedPairs_map {A B : Type} (f : A -> B) (l : list A) :
  unorderedPairs (map f l)
  = map (fun p => (f (fst p), f (snd p))) (unorderedPairs l).
Proof.
  induction l as [|x l IH]; [reflexivity|].
  cbn [map unorderedPairs]. rewrite map_app, !map_map, IH. reflexivity.
Qed.

Lemma length_unorderedPairs {A : Type} (l : list A) :
  2 * length (unorderedPairs l) = length l * (length l - 1).
Proof.
  induction l as [|x l IH]; [reflexivity|].
  cbn [unorderedPairs length]. rewrite length_app, length_map.
  destruct (length l); cbn in *; nia.
Qed.

Lemma in_unorderedPairs {A : Type} (l : list A) (p : A * A) :
  In p (unorderedPairs l) -> In (fst p) l /\ In (snd p) l.
Proof.
  induction l as [|x l IH]; cbn [unorderedPairs]; [contradiction|].
  rewrite in_app_iff, in_map_iff. intros [(y & <- & Hy)|H].
  - cbn. auto.
  - destruct (IH H). cbn. auto.
Qed.

Lemma NoDup_unorderedPairs {A : Type} (l : list A) :
  NoDup l -> NoDup (unorderedPairs l).
Proof.
  induction 1 as [|x l Hx Hl IH]; cbn [unorderedPairs]; [constructor|].
  apply NoDup_app.
  - apply NoDup_map_NoDup_ForallPairs; [|assumption].
    intros a b _ _ [= E]. exact E.
  - exact IH.
  - intros p Hp Hq. apply in_map_iff in Hp as (y & <- & _).
    apply in_unorderedPairs in Hq as [Hq _]. contradiction.
Qed.

Lemma in_unorderedPairs_seq (n a i j : nat) :
  In (i, j) (unorderedPairs (seq a n)) <-> a <= i /\ i < j /\ j < a + n.
Proof.
  revert a. induction n as [|n IH]; intro a; cbn [seq unorderedPairs].
  - split; [contradiction|lia].
  - rewrite in_app_iff, in_map_iff, IH. split.
    + intros [(y & [= <- <-] & Hy)|H]; [apply in_seq in Hy|]; lia.
    + intros (H1 & H2 & H3).
      destruct (Nat.eq_dec a i) as [<-|Hne].
      * left. exists j. split; [reflexivity|]. apply in_seq. lia.
      * right. lia.
Qed.

(** The nested loops enumerate the unordered pairs of the indices. *)
Lemma pair_rows (n a : nat) :
  flat_map (fun i => map (fun j => (i, j)) (seq (i + 1) (a + n - (i + 1))))
    (seq a n)
  = unorderedPairs (seq a n).
Proof.
  revert a. induction n as [|n IH]; intro a; [reflexivity|].
  cbn [seq flat_map unorderedPairs].
  replace (a + S n - (a + 1)) with n by lia.
  replace (a + 1) with (S a) by lia. f_equal.
  rewrite <- IH. apply flat_map_ext. intro i.
  now replace (a + S n) with (S a + n) by lia.
Qed.

Lemma colorPairsOf_indices (k : nat) :
  colorPairsOf (colorIndicesOf k) = unorderedPairs (seq 0 k).
Proof.
  unfold colorPairsOf, colorIndicesOf. rewrite length_seq.
  rewrite <- (pair_rows k 0). cbn [Nat.add].
  apply flat_map_ext. intro i.
  apply map_ext_in. intros j Hj. apply in_seq in Hj.
  rewrite !seq_nth by lia. reflexivity.
Qed.

Lemma colorPairsOf_few (k : nat) :
  k < 2 -> colorPairsOf (colorIndicesOf k) = [].
Proof.
  intro Hk. rewrite colorPairsOf_indices.
  destruct k as [|[|k]]; [reflexivity|reflexivity|lia].
Qed.

Lemma colorPairsOf_many (k : nat) :
  2 <= k -> length (colorPairsOf (colorIndicesOf k)) <> 0.
Proof.
  intro Hk. pose proof (length_unorderedPairs (seq 0 k)) as H.
  rewrite colorPairsOf_indices. rewrite length_seq in H. nia.
Qed.

Local Close Scope nat_scope.

Lemma calculateValueScore_abs (v1 v2 : Q) :
  calculateValueScore v1 v2 == Qabs (v1 - v2).
Proof. unfold calculateValueScore. field. Qed.

Lemma calculateSaturationScore_abs (s1 s2 : Q) :
  calculateSaturationScore s1 s2 == 100 - Qabs (s1 - s2).
Proof. unfold calculateSaturationScore. field. Qed.

Lemma pairScore_weighted (h1 s1 v1 h2 s2 v2 : Q) :
  pairScore (h1, s1, v1) (h2, s2, v2)
  == 0.5 * calculateHueScore h1 h2 + 0.3 * Qabs (v1 - v2)
     + 0.2 * (100 - Qabs (s1 - s2)).
Proof.
  unfold pairScore. cbn [hue value saturation weights].
  rewrite calculateValueScore_abs, calculateSaturationScore_abs. ring.
Qed.

Lemma forEachPair_sum (colours : list hsv) (pairs : list (nat * nat)) :
  (forall p, In p pairs ->
     (fst p < length colours)%nat /\ (snd p < length colours)%nat) ->
  forall t, exists total,
    forEachPair (map Some colours) pairs (Some t) = inr (Some total) /\
    total == t + Qsum (map (fun p => pairScore (colourAt colours (fst p))
                                       (colourAt colours (snd p))) pairs).
Proof.
  induction pairs as [|p pairs IH]; intros Hin t.
  - exists t. split; [reflexivity|]. unfold Qsum. cbn [map fold_right]. ring.
  - destruct (Hin p (or_introl eq_refl)) as [H1 H2].
    cbn [forEachPair]. unfold forEachStep.
    rewrite !nth_error_map.
    rewrite (nth_error_nth' colours (0, 0, 0) H1).
    rewrite (nth_error_nth' colours (0, 0, 0) H2).
    cbn [option_map tbind bind].
    destruct (IH (fun q Hq => Hin q (or_intror Hq))
                (t + pairScore (colourAt colours (fst p))
                               (colourAt colours (snd p))))
      as (total & E & Ht).
    exists total. split; [exact E|].
    rewrite Ht. unfold Qsum. cbn [map fold_right]. ring.
Qed.

Lemma pairScores_positions (colours : list hsv) :
  pairScores colours
  = map (fun p => pairScore (colourAt colours (fst p))
                    (colourAt colours (snd p)))
      (unorderedPairs (seq 0 (length colours))).
Proof.
  unfold pairScores.
  rewrite <- (map_nth_positions colours (0, 0, 0)) at 1.
  rewrite unorderedPairs_map, map_map. reflexivity.
Qed.

Lemma length_pairScores (colours : list hsv) :
  length (pairScores colours)
  = length (unorderedPairs (seq 0 (length colours))).
Proof. rewrite pairScores_positions. apply length_map. Qed.

(** The conversion of the centroids never yields a non-finite colour. *)
Lemma toHsv_all (dominantRgbs : list centroid) :
  exists colours, map toHsv dominantRgbs = map Some colours /\
                  length colours = length dominantRgbs.
Proof.
  induction dominantRgbs as [|[[r g] b] l (colours & E & Hl)].
  - now exists [].
  - destruct (rgbToHsv_total r g b) as (c & Ec).
    exists (c :: colours). cbn [map toHsv length]. rewrite Ec, E, Hl.
    split; reflexivity.
Qed.

Lemma inject_nat_nonzero (n : nat) :
  n <> O -> ~ inject_Z (Z.of_nat n) == 0.
Proof.
  intros Hn E. unfold Qeq in E. cbn in E. lia.
Qed.

(** The full-precision final score is the mean of the pair scores. *)
Lemma finalScoreOf_mean (k : nat) (colours : list hsv) :
  (2 <= k)%nat -> length colours = k ->
  exists finalScore,
    finalScoreOf (map Some colours) (colorPairsOf (colorIndicesOf k))
    = inr (Some finalScore) /\
    finalScore == mean (pairScores colours).
Proof.
  intros Hk Hlen.
  pose proof (colorPairsOf_many k Hk) as Hne.
  unfold finalScoreOf, mean.
  rewrite length_pairScores, pairScores_positions, Hlen.
  rewrite <- colorPairsOf_indices.
  set (pairs := colorPairsOf (colorIndicesOf k)) in *.
  destruct (forEachPair_sum colours pairs) with (t := 0)
    as (total & E & Ht).
  { intros [i j] Hp. unfold pairs in Hp.
    rewrite colorPairsOf_indices in Hp.
    apply in_unorderedPairs_seq in Hp. cbn [fst snd]. lia. }
  rewrite E. cbn [tbind bind].
  rewrite (fdiv_nonzero _ _ (inject_nat_nonzero _ Hne)).
  eexists. split; [reflexivity|].
  rewrite Ht. now rewrite Qplus_0_l.
Qed.

Lemma length_colorPairsOf (k : nat) :
  length (colorPairsOf (colorIndicesOf k)) = (k * (k - 1) / 2)%nat.
Proof.
  pose proof (length_unorderedPairs (seq 0 k)) as H.
  rewrite colorPairsOf_indices. rewrite length_seq in H.
  rewrite <- H, Nat.mul_comm. symmetry. apply Nat.div_mul. discriminate.
Qed.

Lemma scoreCentroids_few (k : nat) (dominantRgbs : list centroid) :
  (k < 2)%nat ->
  scoreCentroids k dominantRgbs
  = inr (ScoreResult (Some 100) (map roundColor dominantRgbs)).
Proof.
  intro Hk. unfold scoreCentroids. now rewrite (colorPairsOf_few k Hk).
Qed.

Lemma scoreCentroids_many (k : nat) (dominantRgbs : list centroid)
    (colours : list hsv) :
  (2 <= k)%nat -> length dominantRgbs = k ->
  map toHsv dominantRgbs = map Some colours ->
  exists finalScore,
    finalScoreOf (map toHsv dominantRgbs) (colorPairsOf (colorIndicesOf k))
    = inr (Some finalScore) /\
    finalScore == mean (pairScores colours) /\
    scoreCentroids k dominantRgbs
    = inr (ScoreResult (Some (round2 finalScore))
             (map roundColor dominantRgbs)).
Proof.
  intros Hk Hlen E.
  assert (Hc : length colours = k).
  { rewrite <- Hlen, <- (length_map toHsv dominantRgbs), E.
    symmetry. apply length_map. }
  destruct (finalScoreOf_mean k colours Hk Hc) as (f & Ef & Hf).
  rewrite <- E in Ef.
  exists f. split; [exact Ef|split; [exact Hf|]].
  unfold scoreCentroids. cbv zeta. rewrite Ef. cbn [tbind option_map].
  destruct (Nat.eqb_spec (length (colorPairsOf (colorIndicesOf k))) 0)
    as [E0|_]; [|reflexivity].
  exfalso. exact (colorPairsOf_many k Hk E0).
Qed.



(** ** Ranges of the scores and rounding *)

Lemma hueBands_range (d : Q) : 0 <= hueBands d <= 100.
Proof.
  unfold hueBands.
  destruct (Qle_bool d 30) eqn:E1; [lra|].
  destruct (Qle_bool 150 d && Qle_bool d 210); [lra|].
  apply Qle_bool_false in E1.
  destruct (Qmax_cases 0 (60 - d)) as [[? E]|[? E]]; rewrite E; lra.
Qed.

Lemma pairScore_range (c1 c2 : hsv) :
  hsvInRange c1 -> hsvInRange c2 -> 0 <= pairScore c1 c2 <= 100.
Proof.
  destruct c1 as [[h1 s1] v1], c2 as [[h2 s2] v2].
  intros (_ & Hs1 & Hv1) (_ & Hs2 & Hv2).
  rewrite pairScore_weighted, calculateHueScore_stages.
  pose proof (hueBands_range (hueDiff h1 h2)).
  destruct (Qabs_cases (v1 - v2)) as [[? Ev]|[? Ev]];
    destruct (Qabs_cases (s1 - s2)) as [[? Es]|[? Es]];
    rewrite Ev, Es; lra.
Qed.

Lemma pairScores_range (colours : list hsv) :
  Forall hsvInRange colours ->
  Forall (fun q => 0 <= q <= 100) (pairScores colours).
Proof.
  intro H. rewrite Forall_forall in H. apply Forall_forall.
  intros q Hq. apply in_map_iff in Hq as (p & <- & Hp).
  apply in_unorderedPairs in Hp as [H1 H2].
  apply pairScore_range; auto.
Qed.

Lemma Qsum_range (l : list Q) :
  Forall (fun q => 0 <= q <= 100) l ->
  0 <= Qsum l <= 100 * inject_Z (Z.of_nat (length l)).
Proof.
  induction 1 as [|q l Hq Hl IH].
  - unfold Qsum. cbn [fold_right length Z.of_nat].
    change (inject_Z 0) with 0. lra.
  - cbn [length]. rewrite Nat2Z.inj_succ. unfold Z.succ.
    rewrite inject_Z_plus. unfold Qsum in *. cbn [fold_right].
    change (inject_Z 1) with 1. lra.
Qed.

Lemma mean_range (l : list Q) :
  l <> [] -> Forall (fun q => 0 <= q <= 100) l -> 0 <= mean l <= 100.
Proof.
  intros Hne H. apply Qsum_range in H. unfold mean.
  assert (Hn : 0 < inject_Z (Z.of_nat (length l))).
  { destruct l; [contradiction|].
    change 0 with (inject_Z 0). rewrite <- Zlt_Qlt. cbn [length]. lia. }
  split.
  - apply Qle_shift_div_l; [assumption|lra].
  - apply Qle_shift_div_r; [assumption|lra].
Qed.

Lemma round_nearest (x : Q) :
  x - (1 # 2) < inject_Z (round x) <= x + (1 # 2).
Proof.
  unfold round. pose proof (Qfloor_le (x + (1 # 2))).
  pose proof (Qlt_floor (x + (1 # 2))) as H1.
  rewrite inject_Z_plus in H1. change (inject_Z 1) with 1 in H1.
  split; lra.
Qed.

Lemma round_between (x : Q) (lo hi : Z) :
  inject_Z lo <= x <= inject_Z hi -> (lo <= round x <= hi)%Z.
Proof.
  intros [H1 H2]. destruct (round_nearest x) as [H3 H4].
  split.
  - assert (inject_Z lo < inject_Z (round x + 1)) as H.
    { rewrite inject_Z_plus. change (inject_Z 1) with 1. lra. }
    rewrite <- Zlt_Qlt in H. lia.
  - assert (inject_Z (round x) < inject_Z (hi + 1)) as H.
    { rewrite inject_Z_plus. change (inject_Z 1) with 1. lra. }
    rewrite <- Zlt_Qlt in H. lia.
Qed.

Lemma round2_compat (x y : Q) : x == y -> round2 x = round2 y.
Proof.
  intro E. unfold round2, round.
  assert (H : x * 100 + (1 # 2) == y * 100 + (1 # 2)) by (rewrite E; reflexivity).
  now rewrite (Qfloor_comp _ _ H).
Qed.

(** [round2] keeps a score in [0,100], yields a multiple of 1/100 and
    moves the score by at most 1/200. *)
Lemma round2_spec (x : Q) :
  inject_Z (round (x * 100)) == round2 x * 100 /\
  Qabs (round2 x - x) <= 1 # 200 /\
  (0 <= x <= 100 -> 0 <= round2 x <= 100).
Proof.
  unfold round2. set (n := round (x * 100)).
  assert (E : inject_Z n / 100 == inject_Z n * (1 # 100)) by reflexivity.
  destruct (round_nearest (x * 100)) as [H1 H2]. fold n in H1, H2.
  split; [|split].
  - rewrite E. ring.
  - apply Qabs_case; intro; rewrite E; lra.
  - intros [H3 H4].
    assert (Hn : (0 <= n <= 10000)%Z).
    { apply round_between. change (inject_Z 0) with 0.
      change (inject_Z 10000) with 10000. split; lra. }
    destruct Hn as [Hn1 Hn2].
    rewrite Zle_Qle in Hn1, Hn2. rewrite E.
    change (inject_Z 0) with 0 in Hn1.
    change (inject_Z 10000) with 10000 in Hn2. lra.
Qed.

Lemma roundColor_spec (c : centroid) :
  centroidInRange c ->
  Forall (fun z => (0 <= z <= 255)%Z) (roundColor c).
Proof.
  destruct c as [[r g] b]. intros (Hr & Hg & Hb). unfold inByteRange in *.
  cbn [roundColor].
  repeat (apply Forall_cons;
          [apply round_between; change (inject_Z 0) with 0;
           change (inject_Z 255) with 255; lra|]).
  apply Forall_nil.
Qed.

(** ** The scoring stage never yields a non-finite score *)

Lemma forEachPair_finite (colours : list hsv) (pairs : list (nat * nat)) :
  forall t r,
    forEachPair (map Some colours) pairs (Some t) = inr r ->
    exists total, r = Some total.
Proof.
  induction pairs as [|p pairs IH]; intros t r; cbn [forEachPair].
  - intros [= <-]. now exists t.
  - unfold forEachStep. rewrite !nth_error_map.
    destruct (nth_error colours (fst p)) as [c1|]; cbn [option_map tbind];
      [|discriminate].
    destruct (nth_error colours (snd p)) as [c2|]; cbn [option_map tbind bind];
      [|discriminate].
    apply IH.
Qed.

Lemma scoreCentroids_inv (k : nat) (dominantRgbs : list centroid)
    (response : Response) :
  scoreCentroids k dominantRgbs = inr response ->
  exists score,
    response = ScoreResult (Some score) (map roundColor dominantRgbs).
Proof.
  unfold scoreCentroids. cbv zeta.
  destruct (Nat.eqb_spec (length (colorPairsOf (colorIndicesOf k))) 0)
    as [_|Hne].
  - intros [= <-]. now exists 100.
  - unfold finalScoreOf.
    destruct (toHsv_all dominantRgbs) as (colours & -> & _).
    destruct (forEachPair _ _ _) as [e|total] eqn:E; cbn [tbind];
      [discriminate|].
    apply forEachPair_finite in E as (t & ->). cbn [bind].
    rewrite (fdiv_nonzero _ _ (inject_nat_nonzero _ Hne)).
    cbn [option_map]. intros [= <-]. now eexists.
Qed.

(** The conversion of centroids within the byte range yields colours
    within the HSV ranges. *)
Lemma toHsv_range (dominantRgbs : list centroid) :
  Forall centroidInRange dominantRgbs ->
  exists colours, map toHsv dominantRgbs = map Some colours /\
                  Forall hsvInRange colours.
Proof.
  induction 1 as [|[[r g] b] l (Hr & Hg & Hb) Hl (colours & E & Hc)].
  - exists []. split; [reflexivity|constructor].
  - destruct (rgbToHsv_range r g b Hr Hg Hb) as (h & s & v & Ec & Hrange).
    exists ((h, s, v) :: colours). cbn [map toHsv]. rewrite Ec, E.
    split; [reflexivity|]. constructor; assumption.
Qed.

(** ** Hues 0, 180 and 0 *)

Lemma calculateHueScore_analogous (h1 h2 : Q) :
  Qabs (h1 - h2) <= 30 -> calculateHueScore h1 h2 = 100.
Proof.
  intro H. rewrite calculateHueScore_stages. apply hueBands_low.
  unfold hueDiff.
  destruct (Qmin_cases (Qabs (h1 - h2)) (360 - Qabs (h1 - h2)))
    as [[? E]|[? E]]; rewrite E; lra.
Qed.

Lemma calculateHueScore_opposite (h1 h2 : Q) :
  Qabs (h1 - h2) == 180 -> calculateHueScore h1 h2 = 90.
Proof.
  intro H. rewrite calculateHueScore_stages. apply hueBands_complementary.
  unfold hueDiff.
  destruct (Qmin_cases (Qabs (h1 - h2)) (360 - Qabs (h1 - h2)))
    as [[? E]|[? E]]; rewrite E; lra.
Qed.

Lemma pairScore_same_sv (h1 s1 v1 h2 s2 v2 : Q) :
  s1 == s2 -> v1 == v2 ->
  pairScore (h1, s1, v1) (h2, s2, v2) == 0.5 * calculateHueScore h1 h2 + 20.
Proof.
  intros Hs Hv. rewrite pairScore_weighted.
  destruct (Qabs_cases (v1 - v2)) as [[? Ev]|[? Ev]];
    destruct (Qabs_cases (s1 - s2)) as [[? Es]|[? Es]];
    rewrite Ev, Es; lra.
Qed.

Lemma pairScores_0_180_0 (h0 s0 v0 h1 s1 v1 h2 s2 v2 : Q) :
  h0 == 0 -> h1 == 180 -> h2 == 0 ->
  s0 == s1 -> s1 == s2 -> v0 == v1 -> v1 == v2 ->
  exists p01 p02 p12,
    pairScores [(h0, s0, v0); (h1, s1, v1); (h2, s2, v2)] = [p01; p02; p12] /\
    p01 == 65 /\ p02 == 70 /\ p12 == 65.
Proof.
  intros Hh0 Hh1 Hh2 Hs01 Hs12 Hv01 Hv12.
  eexists _, _, _. split; [reflexivity|]. cbn [fst snd].
  rewrite !pairScore_same_sv by lra.
  rewrite (calculateHueScore_opposite h0 h1), (calculateHueScore_analogous h0 h2),
    (calculateHueScore_opposite h1 h2).
  - repeat split; lra.
  - destruct (Qabs_cases (h1 - h2)) as [[? E]|[? E]]; rewrite E; lra.
  - destruct (Qabs_cases (h0 - h2)) as [[? E]|[? E]]; rewrite E; lra.
  - destruct (Qabs_cases (h0 - h1)) as [[? E]|[? E]]; rewrite E; lra.
Qed.

(** ** The handler *)

Section HandlerFacts.

Variable World : Type.
Variable sharp : bytes -> result (bytes * OutputInfo).
Variable kmeans :
  World -> list pixel -> nat -> option Z -> result (list centroid).

Local Abbreviation tryBlock := (tryBlock World sharp kmeans).
Local Abbreviation handle := (handle World sharp kmeans).
Local Abbreviation POST := (POST World sharp kmeans).
Local Abbreviation Decoded := (Decoded sharp).
Local Abbreviation Clustered := (Clustered World sharp kmeans).

Lemma tryBlock_decoded (k : nat) (w : World) (request : Request)
    (data : bytes) (info : OutputInfo) :
  Decoded request data info ->
  tryBlock k w request
  = (dominantRgbs <-!
       kmeans w (extractPixels data (channels info)) k (Some 42%Z) ;;
     scoreCentroids k dominantRgbs).
Proof.
  intros (fd & content & E1 & E2 & E3).
  unfold tryBlock. rewrite E1. cbn [tbind]. rewrite E2. cbn [falsy].
  rewrite E3. reflexivity.
Qed.

Lemma tryBlock_clustered (k : nat) (w : World) (request : Request)
    (dominantRgbs : list centroid) :
  Clustered k w request dominantRgbs ->
  tryBlock k w request = scoreCentroids k dominantRgbs.
Proof.
  intros (data & info & Hd & E).
  rewrite (tryBlock_decoded k w request data info Hd), E. reflexivity.
Qed.

Lemma falsy_spec (file : option FormDataEntryValue) :
  falsy file = true <->
  file = None \/ file = Some (EntryString EmptyString).
Proof.
  destruct file as [[content|s]|]; cbn [falsy].
  - split; [discriminate|]. intros [[=]|[=]].
  - rewrite String.eqb_eq. split.
    + intros ->. now right.
    + now intros [[=]|[= ->]].
  - split; auto.
Qed.

Lemma tryBlock_missing (k : nat) (w : World) (request : Request)
    (fd : FormData) :
  formData request = inr fd -> falsy (get fd "file"%string) = true ->
  tryBlock k w request = inr MissingInput.
Proof.
  intros E1 E2. unfold tryBlock. rewrite E1. cbn [tbind]. now rewrite E2.
Qed.

(** A response that the [try] block returns is either the 400 of the
    missing file or what the scoring stage made of the centroids. *)
Lemma tryBlock_inv (k : nat) (w : World) (request : Request)
    (response : Response) :
  tryBlock k w request = inr response ->
  (response = MissingInput /\
   exists fd, formData request = inr fd /\
              falsy (get fd "file"%string) = true) \/
  (exists dominantRgbs,
     Clustered k w request dominantRgbs /\
     scoreCentroids k dominantRgbs = inr response).
Proof.
  unfold tryBlock.
  destruct (formData request) as [e|fd] eqn:E1; cbn [tbind];
    [discriminate|].
  destruct (falsy (get fd "file"%string)) eqn:E2.
  - intros [= <-]. left. split; [reflexivity|]. now exists fd.
  - destruct (get fd "file"%string) as [[content|s]|] eqn:E3;
      [|discriminate|discriminate].
    destruct (sharp content) as [e|[data info]] eqn:E4; cbn [tbind];
      [discriminate|].
    destruct (kmeans _ _ _ _) as [e|dominantRgbs] eqn:E5; cbn [tbind];
      [discriminate|].
    intro E6. right. exists dominantRgbs. split; [|exact E6].
    exists data, info. split; [|exact E5].
    exists fd, content. auto.
Qed.

Lemma handle_success (k : nat) (w : World) (request : Request)
    (score : option Q) (colors : list (list Z)) :
  fst (handle k w request) = ScoreResult score colors ->
  exists dominantRgbs s,
    Clustered k w request dominantRgbs /\
    scoreCentroids k dominantRgbs = inr (ScoreResult score colors) /\
    score = Some s /\ colors = map roundColor dominantRgbs /\
    handle k w request = (ScoreResult score colors, None).
Proof.
  unfold handle.
  destruct (tryBlock k w request) as [e|response] eqn:E; cbn [fst];
    [discriminate|].
  intros ->. apply tryBlock_inv in E as [[[=] _]|(cs & Hc & E)].
  destruct (scoreCentroids_inv _ _ _ E) as (s & [= -> ->]).
  exists cs, s. auto.
Qed.



(** C6: three centroids with hues 0, 180 and 0 and equal saturations and
    values have the pair scores 65, 70 and 65, and the handler returns
    the score 66.67. *)
Theorem hues_0_180_0_score_66_67
    (w : World) (request : Request) (c0 c1 c2 : centroid)
    (h0 s0 v0 h1 s1 v1 h2 s2 v2 : Q) :
  Clustered 3 w request [c0; c1; c2] ->
  toHsv c0 = Some (h0, s0, v0) ->
  toHsv c1 = Some (h1, s1, v1) ->
  toHsv c2 = Some (h2, s2, v2) ->
  h0 == 0 -> h1 == 180 -> h2 == 0 ->
  s0 == s1 -> s1 == s2 -> v0 == v1 -> v1 == v2 ->
  (exists p01 p02 p12,
     pairScores [(h0, s0, v0); (h1, s1, v1); (h2, s2, v2)]
     = [p01; p02; p12] /\
     p01 == 65 /\ p02 == 70 /\ p12 == 65) /\
  (exists finalScore,
     finalScoreOf (map toHsv [c0; c1; c2]) (colorPairsOf (colorIndicesOf 3))
     = inr (Some finalScore) /\
     finalScore == 200 / 3) /\
  POST w request
  = (ScoreResult (Some 66.67) (map roundColor [c0; c1; c2]), None).
Proof.
  intros Hc E0 E1 E2 Hh0 Hh1 Hh2 Hs01 Hs12 Hv01 Hv12.
  destruct (pairScores_0_180_0 h0 s0 v0 h1 s1 v1 h2 s2 v2)
    as (p01 & p02 & p12 & Ep & H01 & H02 & H12); try assumption.
  assert (E : map toHsv [c0; c1; c2]
              = map Some [(h0, s0, v0); (h1, s1, v1); (h2, s2, v2)]).
  { cbn [map]. now rewrite E0, E1, E2. }
  destruct (scoreCentroids_many 3 [c0; c1; c2] _ (le_S 2 2 (le_n 2))
              eq_refl E) as (f & Ef & Hf & Esc).
  assert (Hf' : f == 200 / 3).
  { rewrite Hf, Ep. unfold mean, Qsum. cbn [fold_right length].
    rewrite H01, H02, H12. reflexivity. }
  split; [now exists p01, p02, p12|]. split; [now exists f|].
  unfold POST, handle. rewrite (tryBlock_clustered 3 w request _ Hc), Esc.
  rewrite (round2_compat f (200 / 3) Hf'). reflexivity.
Qed.

(** C8: when the largest channel is 0 the saturation is 0 and the
    quotient [d / max] is not evaluated; [rgbToHsv] never divides by zero,
    and no score of the handler is non-finite. *)
Theorem no_division_by_zero :
  (forall a, fdiv a 0 = None) /\
  (forall r g b, exists c, rgbToHsv r g b = Some c) /\
  (forall r g b h s v,
     max3 (r / 255) (g / 255) (b / 255) == 0 ->
     rgbToHsv r g b = Some (h, s, v) -> s == 0) /\
  (exists h s v,
     rgbToHsv 0 0 0 = Some (h, s, v) /\ h == 0 /\ s == 0 /\ v == 0) /\
  (forall k dominantRgbs response,
     scoreCentroids k dominantRgbs = inr response ->
     exists score,
       response = ScoreResult (Some score) (map roundColor dominantRgbs)) /\
  (forall k w request colors,
     fst (handle k w request) <> ScoreResult None colors).
Proof.
  repeat apply conj.
  - reflexivity.
  - exact rgbToHsv_total.
  - exact rgbToHsv_black_saturation.
  - eexists _, _, _. split; [reflexivity|]. repeat split; reflexivity.
  - exact scoreCentroids_inv.
  - intros k w request colors E.
    apply handle_success in E as (_ & s & _ & _ & [=] & _).
Qed.

(** C7, as the handler has it: the 400 response is given exactly when the
    form data was read and its [file] entry is absent or the empty
    string, whatever the decoder and the clustering would do; every
    thrown error, that of an unreadable body, of a [file] entry that is
    not a file, of the decoder, of the clustering or of the scoring,
    gives the same 500 response, which carries neither the error, which
    is only logged, nor a score or a colour. *)
Theorem missing_input_and_processing_failure
    (k : nat) (w : World) (request : Request) :
  (fst (handle k w request) = MissingInput <->
   exists fd, formData request = inr fd /\
              (get fd "file"%string = None \/
               get fd "file"%string = Some (EntryString EmptyString))) /\
  (forall e, tryBlock k w request = inl e <->
             handle k w request = (ProcessingFailure, Some e)) /\
  (forall e, formData request = inl e ->
             handle k w request = (ProcessingFailure, Some e)) /\
  (forall fd s, formData request = inr fd ->
                get fd "file"%string = Some (EntryString s) ->
                s <> EmptyString ->
                fst (handle k w request) = ProcessingFailure) /\
  (forall fd content e,
     formData request = inr fd ->
     get fd "file"%string = Some (EntryFile content) ->
     sharp content = inl e ->
     handle k w request = (ProcessingFailure, Some e)) /\
  (forall data info e,
     Decoded request data info ->
     kmeans w (extractPixels data (channels info)) k (Some 42%Z) = inl e ->
     handle k w request = (ProcessingFailure, Some e)) /\
  (forall dominantRgbs e,
     Clustered k w request dominantRgbs ->
     scoreCentroids k dominantRgbs = inl e ->
     handle k w request = (ProcessingFailure, Some e)) /\
  (fst (handle k w request) = MissingInput \/
   fst (handle k w request) = ProcessingFailure \/
   exists score colors,
     handle k w request = (ScoreResult (Some score) colors, None)).
Proof.
  split; [|split; [|split; [|split; [|split; [|split; [|split]]]]]].
  - unfold handle. split.
    + destruct (tryBlock k w request) as [e|response] eqn:E; cbn [fst];
        [discriminate|].
      intros ->. apply tryBlock_inv in E as [[_ H]|(cs & _ & E)].
      * destruct H as (fd & E1 & E2). exists fd. split; [exact E1|].
        now apply falsy_spec.
      * apply scoreCentroids_inv in E as (s & [=]).
    + intros (fd & E1 & E2). apply falsy_spec in E2.
      now rewrite (tryBlock_missing k w request fd E1 E2).
  - intro e. unfold handle. split.
    + now intros ->.
    + destruct (tryBlock k w request) as [e'|response]; [now intros [= ->]|].
      intros [= -> [=]].
  - intros e E. unfold handle, tryBlock. now rewrite E.
  - intros fd s E1 E2 Hs. unfold handle, tryBlock.
    rewrite E1. cbn [tbind]. rewrite E2. cbn [falsy].
    apply String.eqb_neq in Hs. now rewrite Hs.
  - intros fd content e E1 E2 E3. unfold handle, tryBlock.
    rewrite E1. cbn [tbind]. rewrite E2. cbn [falsy]. now rewrite E3.
  - intros data info e Hd E. unfold handle.
    now rewrite (tryBlock_decoded k w request data info Hd), E.
  - intros cs e Hc E. unfold handle.
    now rewrite (tryBlock_clustered k w request cs Hc), E.
  - unfold handle.
    destruct (tryBlock k w request) as [e|response] eqn:E; cbn [fst].
    + right. left. reflexivity.
    + apply tryBlock_inv in E as [[-> _]|(cs & _ & E)]; [now left|].
      apply scoreCentroids_inv in E as (s & ->).
      right. right. now exists s, (map roundColor cs).
Qed.

End HandlerFacts.

(** ** Pixel extraction *)

(** The loop ends within [length data - i] iterations: more fuel changes
    nothing. *)
Lemma pixelLoop_fuel (data : bytes) (channels : positive) :
  forall fuel fuel' i pixels,
    (length data - i <= fuel)%nat -> (length data - i <= fuel')%nat ->
    pixelLoop fuel data channels i pixels
    = pixelLoop fuel' data channels i pixels.
Proof.
  pose proof (Pos2Nat.is_pos channels) as Hpos.
  induction fuel as [|fuel IH]; intros fuel' i pixels H1 H2.
  - destruct fuel'; cbn [pixelLoop];
      destruct (Nat.ltb_spec i (length data)); try reflexivity; lia.
  - destruct fuel' as [|fuel']; cbn [pixelLoop];
      destruct (Nat.ltb_spec i (length data)); try reflexivity; try lia.
    apply IH; lia.
Qed.

Lemma extractPixels_fuel (data : bytes) (channels : positive) (fuel : nat) :
  (length data <= fuel)%nat ->
  pixelLoop fuel data channels 0 [] = extractPixels data channels.
Proof.
  intro H. unfold extractPixels. apply pixelLoop_fuel; lia.
Qed.

Lemma pixelLoop_alpha (data1 data2 : bytes) :
  sameRgb data1 data2 ->
  forall fuel p pixels,
    pixelLoop fuel data1 4 (4 * p) pixels
    = pixelLoop fuel data2 4 (4 * p) pixels.
Proof.
  intros [Hlen Hrgb].
  induction fuel as [|fuel IH]; intros p pixels; cbn [pixelLoop];
    rewrite Hlen; destruct (4 * p <? length data2)%nat; try reflexivity.
  change (Pos.to_nat 4) with 4%nat.
  replace (4 * p + 4)%nat with (4 * (p + 1))%nat by lia.
  rewrite <- (Hrgb p 1%nat), <- (Hrgb p 2%nat) by lia.
  pose proof (Hrgb p 0%nat) as H0. rewrite Nat.add_0_r in H0.
  rewrite <- H0 by lia. apply IH.
Qed.

Lemma extractPixels_alpha (data1 data2 : bytes) :
  sameRgb data1 data2 -> extractPixels data1 4 = extractPixels data2 4.
Proof.
  intro H. unfold extractPixels. destruct H as [Hlen Hrgb] eqn:E.
  rewrite Hlen. apply (pixelLoop_alpha data1 data2 (conj Hlen Hrgb) _ 0%nat).
Qed.

Section Alpha.

Variable World : Type.
Variable sharp : bytes -> result (bytes * OutputInfo).
Variable kmeans :
  World -> list pixel -> nat -> option Z -> result (list centroid).

(** C10: two uploads whose decoded four-channel buffers agree on the R,
    G and B samples of every pixel get the same response, whatever their
    alpha samples are. *)
Theorem alpha_has_no_effect
    (k : nat) (w : World) (request1 request2 : Request)
    (data1 data2 : bytes) (info1 info2 : OutputInfo) :
  Decoded sharp request1 data1 info1 ->
  Decoded sharp request2 data2 info2 ->
  channels info1 = 4%positive -> channels info2 = 4%positive ->
  sameRgb data1 data2 ->
  extractPixels data1 (channels info1) = extractPixels data2 (channels info2)
  /\ handle World sharp kmeans k w request1
     = handle World sharp kmeans k w request2
  /\ POST World sharp kmeans w request1 = POST World sharp kmeans w request2.
Proof.
  intros Hd1 Hd2 Hc1 Hc2 Hrgb.
  assert (E : extractPixels data1 (channels info1)
              = extractPixels data2 (channels info2)).
  { rewrite Hc1, Hc2. now apply extractPixels_alpha. }
  assert (H : forall k', handle World sharp kmeans k' w request1
                         = handle World sharp kmeans k' w request2).
  { intro k'. unfold handle.
    rewrite (tryBlock_decoded World sharp kmeans k' w request1 _ _ Hd1).
    rewrite (tryBlock_decoded World sharp kmeans k' w request2 _ _ Hd2).
    now rewrite E. }
  split; [exact E|]. split; [apply H|apply H].
Qed.

End Alpha.

Section Determinism.

Variable World : Type.
Variable sharp : bytes -> result (bytes * OutputInfo).
Variable kmeans :
  World -> list pixel -> nat -> option Z -> result (list centroid).

(** The clustering, once seeded, does not depend on the ambient state. *)
Hypothesis kmeans_seeded :
  forall (w1 w2 : World) pixels k seed,
    kmeans w1 pixels k (Some seed) = kmeans w2 pixels k (Some seed).

(** C9: with the seed fixed at 42, two runs of the handler on the same
    request give the same response, score and colours, whatever the
    ambient state of each run. *)
Theorem handler_deterministic (k : nat) (w1 w2 : World) (request : Request) :
  handle World sharp kmeans k w1 request
  = handle World sharp kmeans k w2 request /\
  POST World sharp kmeans w1 request = POST World sharp kmeans w2 request.
Proof.
  assert (H : forall k', tryBlock World sharp kmeans k' w1 request
                         = tryBlock World sharp kmeans k' w2 request).
  { intro k'. unfold tryBlock.
    destruct (formData request) as [e|fd]; cbn [tbind]; [reflexivity|].
    destruct (falsy (get fd "file"%string)); [reflexivity|].
    destruct (get fd "file"%string) as [[content|s]|]; try reflexivity.
    destruct (sharp content) as [e|[data info]]; cbn [tbind];
      [reflexivity|].
    now rewrite (kmeans_seeded w1 w2). }
  unfold POST, handle. now rewrite !H.
Qed.

End Determinism.

(** ** The handler on examples *)

Lemma double_clustered (k : nat) (w : Double.World) (content : bytes)
    (dominantRgbs : list centroid) :
  content <> [] ->
  Double.kmeans w (extractPixels content 4) k (Some 42%Z) = inr dominantRgbs ->
  Clustered Double.World Double.sharp Double.kmeans k w
    (Double.upload content) dominantRgbs.
Proof.
  intros Hne E.
  exists content,
    {| width := length content / 4; height := 1; channels := 4 |}.
  split; [|exact E].
  exists [("file"%string, EntryFile content)], content.
  repeat split. destruct content; [contradiction|reflexivity].
Qed.

Lemma double_clustered_inv (k : nat) (w : Double.World) (content : bytes)
    (dominantRgbs : list centroid) :
  Clustered Double.World Double.sharp Double.kmeans k w
    (Double.upload content) dominantRgbs ->
  Double.kmeans w (extractPixels content 4) k (Some 42%Z) = inr dominantRgbs.
Proof.
  intros (data & info & (fd & content' & E1 & E2 & E3) & E4).
  cbn in E1. injection E1 as <-. cbn in E2. injection E2 as <-.
  destruct content; [discriminate|]. cbn in E3. injection E3 as <- <-.
  exact E4.
Qed.



Lemma hues_0_180_0_score_66_67_witness :
  POST Double.World Double.sharp Double.kmeans 0%nat
    (Double.upload Double.redCyanRed)
  = (ScoreResult (Some 66.67) [[255; 0; 0]; [0; 255; 255]; [255; 0; 0]]%Z,
     None).
Proof.
  assert (Hc : Clustered Double.World Double.sharp Double.kmeans 3 0%nat
                 (Double.upload Double.redCyanRed)
                 [(255, 0, 0); (0, 255, 255); (255, 0, 0)])
    by (apply double_clustered; [discriminate|reflexivity]).
  pose proof (hues_0_180_0_score_66_67 Double.World Double.sharp
                Double.kmeans 0%nat (Double.upload Double.redCyanRed)
                (255, 0, 0) (0, 255, 255) (255, 0, 0)
                _ _ _ _ _ _ _ _ _ Hc eq_refl eq_refl eq_refl) as H.
  apply H; vm_compute; reflexivity.
Defined.

(** An upload whose body cannot be read as form data, and an upload of
    an empty file, both get the 500 response, not the 400 one. *)
Lemma malformed_or_empty_upload_is_processing_failure :
  let malformed :=
    {| formData := inl (TypeError "Failed to parse body as FormData") |} in
  let empty := Double.upload [] in
  fst (POST Double.World Double.sharp Double.kmeans 0%nat malformed)
  = ProcessingFailure /\
  fst (POST Double.World Double.sharp Double.kmeans 0%nat malformed)
  <> MissingInput /\
  fst (POST Double.World Double.sharp Double.kmeans 0%nat empty)
  = ProcessingFailure /\
  fst (POST Double.World Double.sharp Double.kmeans 0%nat empty)
  <> MissingInput.
Proof.
  cbv zeta. repeat split; try reflexivity; discriminate.
Qed.

Lemma missing_input_and_processing_failure_witness :
  fst (handle Double.World Double.sharp Double.kmeans 3 0%nat
         {| formData := inr [("note"%string, EntryString "hello")] |})
  = MissingInput /\
  handle Double.World Double.sharp Double.kmeans 3 0%nat (Double.upload [])
  = (ProcessingFailure, Some (Error "Input buffer is empty")).
Proof.
  split.
  - apply (missing_input_and_processing_failure Double.World Double.sharp
             Double.kmeans 3 0%nat
             {| formData := inr [("note"%string, EntryString "hello")] |}).
    exists [("note"%string, EntryString "hello")].
    split; [reflexivity|]. left. reflexivity.
  - destruct (missing_input_and_processing_failure Double.World Double.sharp
                Double.kmeans 3 0%nat (Double.upload []))
      as (_ & _ & _ & _ & H & _).
    apply (H [("file"%string, EntryFile [])] []); reflexivity.
Defined.

Lemma no_division_by_zero_witness :
  (exists c, rgbToHsv 0 0 0 = Some c) /\
  (forall colors,
     fst (handle Double.World Double.sharp Double.kmeans 3 0%nat
            (Double.upload Double.redCyanRed))
     <> ScoreResult None colors).
Proof.
  destruct (no_division_by_zero Double.World Double.sharp Double.kmeans)
    as (_ & H1 & _ & _ & _ & H2).
  split; [apply H1|apply H2].
Defined.

Lemma handler_deterministic_witness :
  POST Double.World Double.sharp Double.kmeans 0%nat
    (Double.upload Double.redCyanRed)
  = POST Double.World Double.sharp Double.kmeans 2%nat
      (Double.upload Double.redCyanRed).
Proof.
  apply (handler_deterministic Double.World Double.sharp Double.kmeans).
  - intros w1 w2 pixels k seed. reflexivity.
  - exact 3%nat.
Defined.

(** Without a seed the stand-in clustering does depend on the ambient
    state. *)
Example double_kmeans_unseeded :
  Double.kmeans 0%nat (extractPixels Double.redCyanRed 4) 1 None
  <> Double.kmeans 1%nat (extractPixels Double.redCyanRed 4) 1 None.
Proof. vm_compute. discriminate. Qed.

Lemma alpha_has_no_effect_witness :
  POST Double.World Double.sharp Double.kmeans 0%nat
    (Double.upload Double.redCyanRed)
  = POST Double.World Double.sharp Double.kmeans 0%nat
      (Double.upload [255; 0; 0; 1; 0; 255; 255; 2; 255; 0; 0; 3]%Z).
Proof.
  apply (alpha_has_no_effect Double.World Double.sharp Double.kmeans 3 0%nat
           (Double.upload Double.redCyanRed)
           (Double.upload [255; 0; 0; 1; 0; 255; 255; 2; 255; 0; 0; 3]%Z)
           Double.redCyanRed
           [255; 0; 0; 1; 0; 255; 255; 2; 255; 0; 0; 3]%Z
           {| width := 3; height := 1; channels := 4 |}
           {| width := 3; height := 1; channels := 4 |}).
  - eexists _, _. repeat split.
  - eexists _, _. repeat split.
  - reflexivity.
  - reflexivity.
  - split; [reflexivity|].
    intros p c Hc.
    destruct p as [|[|[|p]]];
      [destruct c as [|[|[|c]]]; try reflexivity; lia ..|].
    assert (H : forall l : bytes, length l = 12%nat ->
                nth_error l (4 * S (S (S p)) + c) = None)
      by (intros l Hl; apply nth_error_None; lia).
    now rewrite !H.
Defined.

(** * Further properties of the scoring helpers *)

(** X1: The hue score is 100, 90 or below 30, whatever the hues; it is 100
    exactly when the circular distance is at most 30, and it is 0 for a
    distance from 60 up to 150. *)
Theorem calculateHueScore_values (h1 h2 : Q) :
  (calculateHueScore h1 h2 = 100 \/ calculateHueScore h1 h2 = 90 \/
   0 <= calculateHueScore h1 h2 < 30) /\
  (calculateHueScore h1 h2 == 100 <-> hueDiff h1 h2 <= 30) /\
  (60 <= hueDiff h1 h2 < 150 -> calculateHueScore h1 h2 == 0).
Proof.
  rewrite calculateHueScore_stages. set (d := hueDiff h1 h2).
  assert (Hlow : ~ d <= 30 -> hueBands d = 90 \/ 0 <= hueBands d < 30).
  { intro Hd. unfold hueBands.
    destruct (Qle_bool d 30) eqn:E1;
      [apply Qle_bool_iff in E1; contradiction|].
    destruct (Qle_bool 150 d && Qle_bool d 210); [now left|right].
    destruct (Qmax_cases 0 (60 - d)) as [[? E]|[? E]]; rewrite E; lra. }
  split; [|split].
  - destruct (Qlt_le_dec 30 d) as [Hd|Hd].
    + right. apply Hlow. lra.
    + left. now apply hueBands_low.
  - split.
    + intro E. destruct (Qlt_le_dec 30 d) as [Hd|Hd]; [|exact Hd].
      exfalso. destruct Hlow as [H|H]; [lra|rewrite H in E; discriminate E|].
      rewrite E in H. lra.
    + intro Hd. now rewrite (hueBands_low d Hd).
  - intros [H1 H2]. rewrite hueBands_otherwise by lra.
    destruct (Qmax_cases 0 (60 - d)) as [[? E]|[? E]]; rewrite E; lra.
Qed.

Lemma calculateHueScore_values_witness :
  calculateHueScore 0 90 == 0.
Proof.
  destruct (calculateHueScore_values 0 90) as (_ & _ & H).
  apply H. vm_compute. split; [discriminate|reflexivity].
Defined.



Lemma pairScore_sym (c1 c2 : hsv) : pairScore c1 c2 = pairScore c2 c1.
Proof.
  destruct c1 as [[h1 s1] v1], c2 as [[h2 s2] v2]. unfold pairScore.
  rewrite !calculateHueScore_stages, (hueDiff_sym h1 h2).
  unfold calculateValueScore, calculateSaturationScore.
  now rewrite (Qabs_Qminus v1 v2), (Qabs_Qminus s1 s2).
Qed.

Lemma pairScore_self (c : hsv) : pairScore c c == 70.
Proof.
  destruct c as [[h s] v].
  rewrite pairScore_same_sv by reflexivity.
  rewrite calculateHueScore_analogous; [lra|].
  destruct (Qabs_cases (h - h)) as [[? E]|[? E]]; rewrite E; lra.
Qed.

(** X3: The pair score does not depend on the order of the two colours, is
    70 for a colour paired with itself, and lies in [0,100] for colours with
    saturation and value in [0,100]. *)
Theorem pairScore_symmetric_bounded (c1 c2 : hsv) :
  pairScore c1 c2 = pairScore c2 c1 /\
  pairScore c1 c1 == 70 /\
  (hsvInRange c1 -> hsvInRange c2 -> 0 <= pairScore c1 c2 <= 100).
Proof.
  split; [|split].
  - apply pairScore_sym.
  - apply pairScore_self.
  - apply pairScore_range.
Qed.

Lemma pairScore_symmetric_bounded_witness :
  0 <= pairScore (10, 50, 50) (200, 60, 70) <= 100.
Proof.
  destruct (pairScore_symmetric_bounded (10, 50, 50) (200, 60, 70))
    as (_ & _ & H).
  apply H; repeat split; lra.
Defined.

(** * Further properties of the scoring stage *)

Lemma Qsum_cons (q : Q) (l : list Q) : Qsum (q :: l) = q + Qsum l.
Proof. reflexivity. Qed.

Lemma Qsum_app (l1 l2 : list Q) : Qsum (l1 ++ l2) == Qsum l1 + Qsum l2.
Proof.
  unfold Qsum. induction l1 as [|q l1 IH]; cbn [app fold_right].
  - ring.
  - rewrite IH. ring.
Qed.

Lemma Qsum_permutation (l1 l2 : list Q) :
  Permutation l1 l2 -> Qsum l1 == Qsum l2.
Proof.
  unfold Qsum.
  induction 1 as [|x l1 l2 _ IH|x y l|l1 l2 l3 _ IH1 _ IH2];
    cbn [fold_right].
  - reflexivity.
  - now rewrite IH.
  - ring.
  - now rewrite IH1.
Qed.

Lemma Qsum_constant (l : list Q) (c : Q) :
  Forall (fun q => q == c) l ->
  Qsum l == c * inject_Z (Z.of_nat (length l)).
Proof.
  unfold Qsum. induction 1 as [|q l Hq _ IH]; cbn [fold_right length].
  - change (inject_Z (Z.of_nat 0)) with 0. ring.
  - rewrite Nat2Z.inj_succ. unfold Z.succ. rewrite inject_Z_plus.
    change (inject_Z 1) with 1. rewrite IH, Hq. ring.
Qed.

Lemma mean_constant (l : list Q) (c : Q) :
  l <> [] -> Forall (fun q => q == c) l -> mean l == c.
Proof.
  intros Hne H. unfold mean. rewrite (Qsum_constant l c H).
  field. apply inject_nat_nonzero. destruct l; [contradiction|discriminate].
Qed.

Lemma pairScores_cons (c : hsv) (colours : list hsv) :
  pairScores (c :: colours) = map (pairScore c) colours ++ pairScores colours.
Proof.
  unfold pairScores. cbn [unorderedPairs]. rewrite map_app, map_map.
  reflexivity.
Qed.

(** The sum of the pair scores does not depend on the order of the
    colours. *)
Lemma Qsum_pairScores_permutation (l1 l2 : list hsv) :
  Permutation l1 l2 -> Qsum (pairScores l1) == Qsum (pairScores l2).
Proof.
  induction 1 as [|x l1 l2 Hp IH|x y l|l1 l2 l3 _ IH1 _ IH2].
  - reflexivity.
  - rewrite !pairScores_cons, !Qsum_app, IH.
    now rewrite (Qsum_permutation _ _ (Permutation_map (pairScore x) Hp)).
  - rewrite !pairScores_cons. cbn [map app].
    rewrite !Qsum_cons, !Qsum_app.
    rewrite (pairScore_sym y x). ring.
  - now rewrite IH1.
Qed.

Lemma toHsv_permutation (cs cs' : list centroid) :
  Permutation cs cs' ->
  forall colours, map toHsv cs = map Some colours ->
  exists colours',
    map toHsv cs' = map Some colours' /\ Permutation colours colours'.
Proof.
  induction 1 as [|x l l' _ IH|x y l|l1 l2 l3 _ IH1 _ IH2]; intros colours E.
  - exists colours. split; [exact E|reflexivity].
  - destruct colours as [|c colours]; [discriminate|].
    cbn [map] in E. injection E as Ex El.
    destruct (IH colours El) as (colours' & E' & Hp).
    exists (c :: colours'). cbn [map]. rewrite Ex, E'.
    split; [reflexivity|now constructor].
  - destruct colours as [|a [|b colours]]; try discriminate.
    cbn [map] in E. injection E as Ey Ex El.
    exists (b :: a :: colours). cbn [map]. rewrite Ey, Ex, El.
    split; [reflexivity|constructor].
  - destruct (IH1 colours E) as (c2 & E2 & Hp2).
    destruct (IH2 c2 E2) as (c3 & E3 & Hp3).
    exists c3. split; [exact E3|]. now transitivity c2.
Qed.

Lemma mean_pairScores_permutation (l1 l2 : list hsv) :
  Permutation l1 l2 -> mean (pairScores l1) == mean (pairScores l2).
Proof.
  intro Hp. unfold mean.
  rewrite (Qsum_pairScores_permutation l1 l2 Hp).
  now rewrite !length_pairScores, (Permutation_length Hp).
Qed.



(** X5: Identical centroids score 70. *)
Theorem solid_colour_scores_70 (k : nat) (c : centroid) :
  (2 <= k)%nat ->
  exists s,
    scoreCentroids k (repeat c k)
    = inr (ScoreResult (Some s) (repeat (roundColor c) k)) /\
    s == 70.
Proof.
  intro Hk. destruct c as [[r g] b].
  destruct (rgbToHsv_total r g b) as (hc & Ehc).
  assert (E : map toHsv (repeat (r, g, b) k) = map Some (repeat hc k)).
  { rewrite !map_repeat. cbn [toHsv]. now rewrite Ehc. }
  destruct (scoreCentroids_many k _ _ Hk (repeat_length _ k) E)
    as (f & _ & Hf & Es).
  assert (Hf70 : f == 70).
  { rewrite Hf. apply mean_constant.
    - intro E0. apply (f_equal (@length Q)) in E0.
      rewrite length_pairScores, repeat_length, <- colorPairsOf_indices
        in E0.
      exact (colorPairsOf_many k Hk E0).
    - apply Forall_forall. intros q Hq.
      apply in_map_iff in Hq as (p & <- & Hp).
      apply in_unorderedPairs in Hp as [H1 H2].
      apply repeat_spec in H1, H2. rewrite H1, H2. apply pairScore_self. }
  exists (round2 f). rewrite Es, map_repeat. split; [reflexivity|].
  rewrite (round2_compat f 70 Hf70). reflexivity.
Qed.

Lemma solid_colour_scores_70_witness :
  exists s,
    scoreCentroids 3 (repeat (12, 200, 7) 3)
    = inr (ScoreResult (Some s) (repeat (roundColor (12, 200, 7)) 3)) /\
    s == 70.
Proof.
  apply (solid_colour_scores_70 3 (12, 200, 7)).
  apply Nat.leb_le. reflexivity.
Defined.

Lemma forEachPair_out_of_range (dominantHsvs : list (option hsv))
    (pairs : list (nat * nat)) :
  Exists (fun p => (length dominantHsvs <= fst p)%nat \/
                   (length dominantHsvs <= snd p)%nat) pairs ->
  forall t, forEachPair dominantHsvs pairs t
            = inl (TypeError "undefined is not iterable").
Proof.
  induction pairs as [|p pairs IH]; intros Hex t.
  - inversion Hex.
  - cbn [forEachPair]. unfold forEachStep.
    destruct (nth_error dominantHsvs (fst p)) as [c1|] eqn:E1;
      [|reflexivity].
    destruct (nth_error dominantHsvs (snd p)) as [c2|] eqn:E2;
      [|reflexivity].
    cbn [tbind]. apply IH.
    apply Exists_cons in Hex as [[H|H]|H]; [| |exact H].
    + apply nth_error_None in H. congruence.
    + apply nth_error_None in H. congruence.
Qed.

Lemma forEachPair_app (dominantHsvs extra : list (option hsv))
    (pairs : list (nat * nat)) :
  (forall p, In p pairs ->
     (fst p < length dominantHsvs)%nat /\
     (snd p < length dominantHsvs)%nat) ->
  forall t, forEachPair (dominantHsvs ++ extra) pairs t
            = forEachPair dominantHsvs pairs t.
Proof.
  induction pairs as [|p pairs IH]; intros Hin t; [reflexivity|].
  destruct (Hin p (or_introl eq_refl)) as [H1 H2].
  cbn [forEachPair]. unfold forEachStep.
  rewrite !nth_error_app1 by assumption.
  destruct (nth_error dominantHsvs (fst p)); [|reflexivity].
  destruct (nth_error dominantHsvs (snd p)); [|reflexivity].
  cbn [tbind]. apply IH. intros q Hq. apply Hin. now right.
Qed.

(** When there are fewer centroids than [k >= 2], reading the missing
    one throws. *)
Lemma scoreCentroids_short (k : nat) (dominantRgbs : list centroid) :
  (2 <= k)%nat -> (length dominantRgbs < k)%nat ->
  scoreCentroids k dominantRgbs
  = inl (TypeError "undefined is not iterable").
Proof.
  intros Hk Hlen. unfold scoreCentroids. cbv zeta.
  destruct (Nat.eqb_spec (length (colorPairsOf (colorIndicesOf k))) 0)
    as [E0|_]; [exfalso; exact (colorPairsOf_many k Hk E0)|].
  unfold finalScoreOf. rewrite forEachPair_out_of_range; [reflexivity|].
  apply Exists_exists. exists (0%nat, (k - 1)%nat). split.
  - rewrite colorPairsOf_indices. apply in_unorderedPairs_seq. lia.
  - right. rewrite length_map. cbn [snd]. lia.
Qed.

(** X6: Centroids beyond the first [k] do not change the score; they are
    still listed among the colours. *)
Theorem surplus_centroids_only_listed
    (k : nat) (dominantRgbs extra : list centroid) :
  length dominantRgbs = k ->
  exists s,
    scoreCentroids k dominantRgbs
    = inr (ScoreResult (Some s) (map roundColor dominantRgbs)) /\
    scoreCentroids k (dominantRgbs ++ extra)
    = inr (ScoreResult (Some s)
             (map roundColor dominantRgbs ++ map roundColor extra)).
Proof.
  intro Hlen. destruct (Nat.lt_ge_cases k 2) as [Hk|Hk].
  - exists 100. rewrite !scoreCentroids_few by assumption.
    now rewrite map_app.
  - destruct (toHsv_all dominantRgbs) as (colours & E & _).
    destruct (scoreCentroids_many k dominantRgbs colours Hk Hlen E)
      as (f & _ & _ & Es).
    exists (round2 f). split; [exact Es|].
    revert Es. unfold scoreCentroids. cbv zeta.
    destruct (length (colorPairsOf (colorIndicesOf k)) =? 0)%nat;
      [now rewrite map_app|].
    unfold finalScoreOf. rewrite !map_app, forEachPair_app.
    + match goal with
      | |- tbind ?m _ = _ -> _ => destruct m as [e|fs]
      end; cbn [tbind]; [discriminate|].
      intros [= H]. now rewrite H.
    + intros [i j] Hp. rewrite colorPairsOf_indices in Hp.
      apply in_unorderedPairs_seq in Hp. rewrite length_map.
      cbn [fst snd]. lia.
Qed.

Lemma surplus_centroids_only_listed_witness :
  exists s,
    scoreCentroids 2 [(255, 0, 0); (0, 255, 255)]
    = inr (ScoreResult (Some s)
             (map roundColor [(255, 0, 0); (0, 255, 255)])) /\
    scoreCentroids 2 ([(255, 0, 0); (0, 255, 255)] ++ [(9, 9, 9)])
    = inr (ScoreResult (Some s)
             (map roundColor [(255, 0, 0); (0, 255, 255)]
              ++ map roundColor [(9, 9, 9)])).
Proof.
  apply (surplus_centroids_only_listed 2 [(255, 0, 0); (0, 255, 255)]
           [(9, 9, 9)]).
  reflexivity.
Defined.

(** * Further properties of the conversion to HSV *)

Lemma max3_unique (a b c M : Q) :
  a <= M -> b <= M -> c <= M -> M == a \/ M == b \/ M == c ->
  max3 a b c == M.
Proof.
  intros Ha Hb Hc HM.
  destruct (max3_upper a b c) as (H1 & H2 & H3).
  destruct (max3_attained a b c) as [E|[E|E]];
    destruct HM as [E'|[E'|E']]; lra.
Qed.

Lemma min3_unique (a b c m : Q) :
  m <= a -> m <= b -> m <= c -> m == a \/ m == b \/ m == c ->
  min3 a b c == m.
Proof.
  intros Ha Hb Hc Hm.
  destruct (min3_lower a b c) as (H1 & H2 & H3).
  destruct (min3_attained a b c) as [E|[E|E]];
    destruct Hm as [E'|[E'|E']]; lra.
Qed.



Lemma max3_normalised (r g b : Q) :
  max3 (r / 255) (g / 255) (b / 255) == max3 r g b / 255.
Proof.
  destruct (max3_upper r g b) as (H1 & H2 & H3).
  pose proof (max3_attained r g b) as Ha.
  set (M := max3 r g b) in *.
  apply max3_unique; literal_quotients; lra.
Qed.

Lemma min3_normalised (r g b : Q) :
  min3 (r / 255) (g / 255) (b / 255) == min3 r g b / 255.
Proof.
  destruct (min3_lower r g b) as (H1 & H2 & H3).
  pose proof (min3_attained r g b) as Ha.
  set (m := min3 r g b) in *.
  apply min3_unique; literal_quotients; lra.
Qed.



Lemma max3_scale (t a b c : Q) :
  0 <= t -> max3 (t * a) (t * b) (t * c) == t * max3 a b c.
Proof.
  intro Ht. destruct (max3_upper a b c) as (H1 & H2 & H3).
  pose proof (max3_attained a b c) as Ha.
  set (M := max3 a b c) in *.
  apply max3_unique; nra.
Qed.

Lemma min3_scale (t a b c : Q) :
  0 <= t -> min3 (t * a) (t * b) (t * c) == t * min3 a b c.
Proof.
  intro Ht. destruct (min3_lower a b c) as (H1 & H2 & H3).
  pose proof (min3_attained a b c) as Ha.
  set (m := min3 a b c) in *.
  apply min3_unique; nra.
Qed.

Lemma Qeq_bool_scale (t a b a' b' : Q) :
  0 < t -> a' == t * a -> b' == t * b -> Qeq_bool a' b' = Qeq_bool a b.
Proof.
  intros Ht Ea Eb. rewrite (Qeqb_comp _ _ Ea _ _ Eb).
  assert (Ht0 : ~ t == 0) by lra.
  destruct (Qeq_bool a b) eqn:E.
  - apply Qeq_bool_iff in E. apply Qeq_bool_iff. now rewrite E.
  - apply Qeq_bool_neq in E.
    destruct (Qeq_bool (t * a) (t * b)) eqn:E'; [|reflexivity].
    apply Qeq_bool_iff in E'.
    apply (proj1 (Qmult_inj_l a b t Ht0)) in E'.
    contradiction.
Qed.

Lemma Qle_bool_scale (t a b a' b' : Q) :
  0 < t -> a' == t * a -> b' == t * b -> Qle_bool a' b' = Qle_bool a b.
Proof.
  intros Ht Ea Eb. rewrite (Qleb_comp _ _ Ea _ _ Eb).
  destruct (Qle_bool a b) eqn:E.
  - apply Qle_bool_iff in E. apply Qle_bool_iff. nra.
  - apply Qle_bool_false in E. apply Qle_bool_false. nra.
Qed.

Lemma Qdiv_scale (t x d x' d' : Q) :
  0 < t -> ~ d == 0 -> x' == t * x -> d' == t * d -> x' / d' == x / d.
Proof.
  intros Ht Hd Ex Ed. rewrite Ex, Ed. field. split; lra.
Qed.



(** * Further properties of the pixel extraction *)

Local Open Scope nat_scope.

(** The loop pushes the pixels at [i], [i + channels], ... up to the end
    of the buffer. *)
Lemma pixelLoop_spec (data : bytes) (channels : positive) :
  forall fuel i pixels,
    length data - i <= fuel ->
    exists m,
      pixelLoop fuel data channels i pixels
      = pixels ++ map (fun n => pixelAt data (i + n * Pos.to_nat channels))
                    (seq 0 m) /\
      length data <= i + m * Pos.to_nat channels /\
      (m = 0 \/ i + (m - 1) * Pos.to_nat channels < length data).
Proof.
  pose proof (Pos2Nat.is_pos channels) as Hpos.
  set (c := Pos.to_nat channels) in *.
  induction fuel as [|fuel IH]; intros i pixels Hfuel; cbn [pixelLoop];
    fold c; destruct (Nat.ltb_spec i (length data)) as [Hi|Hi]; try lia.
  - exists 0. cbn [seq map]. rewrite app_nil_r. split; [reflexivity|lia].
  - destruct (IH (i + c) (pixels ++ [pixelAt data i])) as (m & E & H1 & H2);
      [lia|].
    exists (S m). split; [|split].
    + etransitivity; [exact E|]. rewrite <- app_assoc. f_equal.
      cbn [seq map app]. rewrite <- seq_shift, map_map.
      f_equal; [f_equal; lia|].
      apply map_ext. intro n. f_equal. lia.
    + lia.
    + right. destruct H2 as [->|H2]; [cbn; lia|].
      replace (S m - 1) with (S (m - 1)) by lia. lia.
  - exists 0. cbn [seq map]. rewrite app_nil_r. split; [reflexivity|lia].
Qed.

Lemma extractPixels_spec (data : bytes) (channels : positive) :
  exists m,
    extractPixels data channels
    = map (fun n => pixelAt data (n * Pos.to_nat channels)) (seq 0 m) /\
    length data <= m * Pos.to_nat channels /\
    (m = 0 \/ (m - 1) * Pos.to_nat channels < length data).
Proof.
  destruct (pixelLoop_spec data channels (length data) 0 [])
    as (m & E & H1 & H2); [lia|].
  exists m. split; [exact E|]. split; assumption.
Qed.

(** X10: The extraction yields one pixel per started group of [channels]
    samples, and pixel [n] holds the samples at [n * channels], [n *
    channels + 1] and [n * channels + 2]. *)
Theorem extractPixels_count_and_content (data : bytes) (channels : positive) :
  let c := Pos.to_nat channels in
  length (extractPixels data channels) = (length data + c - 1) / c /\
  forall n,
    n < (length data + c - 1) / c ->
    nth_error (extractPixels data channels) n
    = Some (nth_error data (n * c), nth_error data (n * c + 1),
            nth_error data (n * c + 2)).
Proof.
  intro c. pose proof (Pos2Nat.is_pos channels) as Hpos. fold c in Hpos.
  destruct (extractPixels_spec data channels) as (m & E & H1 & H2).
  fold c in E, H1, H2.
  assert (Hm : (length data + c - 1) / c = m).
  { symmetry. apply (Nat.div_unique _ c m (length data + c - 1 - c * m));
      destruct H2 as [->|H2]; nia. }
  rewrite Hm, E. split.
  - now rewrite length_map, length_seq.
  - intros n Hn. rewrite nth_error_map.
    rewrite (nth_error_nth' (seq 0 m) 0) by (rewrite length_seq; exact Hn).
    rewrite seq_nth by exact Hn. reflexivity.
Qed.

Lemma extractPixels_count_and_content_witness :
  nth_error (extractPixels [1; 2; 3; 4; 5; 6; 7; 8; 9]%Z 4) 2
  = Some (Some 9%Z, None, None).
Proof.
  destruct (extractPixels_count_and_content [1; 2; 3; 4; 5; 6; 7; 8; 9]%Z 4)
    as [_ H].
  apply (H 2). apply Nat.ltb_lt. reflexivity.
Defined.

(** X11: A buffer of [n] whole pixels with at least three channels yields
    [n] pixels, every sample of which is defined. *)
Theorem whole_pixels_are_defined
    (data : bytes) (channels : positive) (n : nat) :
  3 <= Pos.to_nat channels -> length data = n * Pos.to_nat channels ->
  length (extractPixels data channels) = n /\
  Forall (fun p => exists r g b, p = (Some r, Some g, Some b))
    (extractPixels data channels).
Proof.
  intros Hc Hlen. set (c := Pos.to_nat channels) in *.
  destruct (extractPixels_spec data channels) as (m & E & H1 & H2).
  fold c in E, H1, H2.
  assert (Hm : m = n) by (destruct H2 as [->|H2]; nia).
  subst m. rewrite E. split; [now rewrite length_map, length_seq|].
  apply Forall_forall. intros p Hp.
  apply in_map_iff in Hp as (k & <- & Hk). apply in_seq in Hk.
  unfold pixelAt.
  destruct (nth_error data (k * c)) as [r|] eqn:Er;
    [|apply nth_error_None in Er; nia].
  destruct (nth_error data (k * c + 1)) as [g|] eqn:Eg;
    [|apply nth_error_None in Eg; nia].
  destruct (nth_error data (k * c + 2)) as [b|] eqn:Eb;
    [|apply nth_error_None in Eb; nia].
  now exists r, g, b.
Qed.

Lemma whole_pixels_are_defined_witness :
  length (extractPixels Double.redCyanRed 4) = 3.
Proof.
  apply (whole_pixels_are_defined Double.redCyanRed 4 3).
  - apply Nat.leb_le. reflexivity.
  - reflexivity.
Defined.

(** X12: With one or two channels the third sample of the last pixel is read
    past the end of the buffer and is undefined. *)
Theorem narrow_buffer_reads_past_the_end
    (data : bytes) (channels : positive) :
  data <> [] -> Pos.to_nat channels <= 2 ->
  exists pixels r g,
    extractPixels data channels = pixels ++ [(r, g, None)].
Proof.
  intros Hne Hc. set (c := Pos.to_nat channels) in *.
  pose proof (Pos2Nat.is_pos channels) as Hpos. fold c in Hpos.
  destruct (extractPixels_spec data channels) as (m & E & H1 & H2).
  fold c in E, H1, H2.
  assert (Hlen : 0 < length data)
    by (destruct data; [contradiction|cbn; lia]).
  destruct m as [|m]; [cbn in H1; lia|].
  destruct H2 as [H2|H2]; [discriminate|].
  rewrite seq_S, map_app in E. cbn [map Nat.add] in E.
  eexists _, _, _. rewrite E. unfold pixelAt. do 3 f_equal.
  apply nth_error_None. nia.
Qed.

Lemma narrow_buffer_reads_past_the_end_witness :
  exists pixels r g,
    extractPixels [10; 20; 30; 40]%Z 2 = pixels ++ [(r, g, None)].
Proof.
  apply narrow_buffer_reads_past_the_end.
  - discriminate.
  - apply Nat.leb_le. reflexivity.
Defined.

Lemma triples_of_buffer (n : nat) :
  forall data : bytes,
    length data = 3 * n ->
    flat_map samples (map (fun k => pixelAt data (k * 3)) (seq 0 n))
    = map Some data.
Proof.
  induction n as [|n IH]; intros data Hlen.
  - destruct data; [reflexivity|discriminate].
  - destruct data as [|a [|b [|c rest]]]; cbn [length] in Hlen; try lia.
    cbn [seq map flat_map]. rewrite <- seq_shift, map_map.
    unfold pixelAt at 1.
    cbn [samples app nth_error Nat.mul Nat.add map]. do 3 f_equal.
    rewrite <- (IH rest) by lia. reflexivity.
Qed.

(** X13: For a three-channel buffer of whole pixels the extraction loses
    nothing: the samples of the pixels, in order, are the buffer. *)
Theorem rgb_buffer_round_trip (data : bytes) (n : nat) :
  length data = 3 * n ->
  flat_map samples (extractPixels data 3) = map Some data.
Proof.
  intro Hlen.
  destruct (extractPixels_spec data 3) as (m & E & H1 & H2).
  change (Pos.to_nat 3) with 3 in E, H1, H2.
  assert (Hm : m = n) by (destruct H2 as [->|H2]; lia).
  subst m. rewrite E. now apply triples_of_buffer.
Qed.

Lemma rgb_buffer_round_trip_witness :
  flat_map samples (extractPixels [1; 2; 3; 4; 5; 6]%Z 3)
  = map Some [1; 2; 3; 4; 5; 6]%Z.
Proof.
  apply (rgb_buffer_round_trip [1; 2; 3; 4; 5; 6]%Z 2). reflexivity.
Defined.

Local Close Scope nat_scope.

(** * Properties of the page *)

Section PageRun.

Variable createObjectURL : Page.File -> string.
Variable fetch : FormData -> Page.Thrown + Page.FetchResponse.

Local Abbreviation handleSubmit := (Page.handleSubmit fetch).
Local Abbreviation handleFileChange :=
  (Page.handleFileChange createObjectURL).

(** The state in which [handleSubmit] leaves the page while the request
    is in flight. *)
Local Abbreviation inFlight st :=
  (Page.setError None (Page.setResult None (Page.setIsLoading true st))).

Lemma handleSubmit_with_file (st : Page.State) (f : Page.File) :
  Page.file st = Some f ->
  handleSubmit st
  = {| Page.sent := Some [("file"%string, EntryFile f)];
       Page.pending := Some (inFlight st);
       Page.final :=
         Page.setIsLoading false
           match Page.request fetch [("file"%string, EntryFile f)] with
           | inr data => Page.setResult (Some data) (inFlight st)
           | inl err =>
               Page.setError (Some (Page.messageOf err)) (inFlight st)
           end |}.
Proof. intro Hf. unfold Page.handleSubmit. now rewrite Hf. Qed.

Lemma handleSubmit_thrown (st : Page.State) (f : Page.File)
    (err : Page.Thrown) :
  Page.file st = Some f ->
  Page.request fetch [("file"%string, EntryFile f)] = inl err ->
  Page.result (Page.final (handleSubmit st)) = None /\
  Page.error (Page.final (handleSubmit st)) = Some (Page.messageOf err) /\
  Page.isLoading (Page.final (handleSubmit st)) = false.
Proof.
  intros Hf E. rewrite (handleSubmit_with_file st f Hf). cbn [Page.final].
  rewrite E. repeat split.
Qed.

Lemma handleSubmit_data (st : Page.State) (f : Page.File)
    (data : Page.Json) :
  Page.file st = Some f ->
  Page.request fetch [("file"%string, EntryFile f)] = inr data ->
  Page.result (Page.final (handleSubmit st)) = Some data /\
  Page.error (Page.final (handleSubmit st)) = None /\
  Page.isLoading (Page.final (handleSubmit st)) = false.
Proof.
  intros Hf E. rewrite (handleSubmit_with_file st f Hf). cbn [Page.final].
  rewrite E. repeat split.
Qed.

(** What the page shows for a response: the fixed message when it is not
    OK, the parsed body when it is. *)
Lemma handleSubmit_response (st : Page.State) (f : Page.File)
    (response : Page.FetchResponse) :
  Page.file st = Some f ->
  fetch [("file"%string, EntryFile f)] = inr response ->
  (Page.ok response = false ->
   Page.result (Page.final (handleSubmit st)) = None /\
   Page.error (Page.final (handleSubmit st))
   = Some "解析に失敗しました。"%string /\
   Page.isLoading (Page.final (handleSubmit st)) = false) /\
  (Page.ok response = true ->
   forall data, Page.json response = inr data ->
   Page.result (Page.final (handleSubmit st)) = Some data /\
   Page.error (Page.final (handleSubmit st)) = None /\
   Page.isLoading (Page.final (handleSubmit st)) = false).
Proof.
  intros Hf E. split.
  - intro Hok.
    apply (handleSubmit_thrown st f
             (Page.ThrownError "解析に失敗しました。") Hf).
    unfold Page.request. now rewrite E, Hok.
  - intros Hok data Hjson. apply (handleSubmit_data st f data Hf).
    unfold Page.request. now rewrite E, Hok.
Qed.


(** X15: The message of a failed submission: the page's fixed text for any
    response that is not OK, whatever its body; the message of the [Error]
    when [fetch] rejects or the body does not parse; the other fixed text
    when what was thrown is not an [Error]. *)
Theorem submit_error_messages
    (st : Page.State) (f : Page.File) :
  Page.file st = Some f ->
  let fd := [("file"%string, EntryFile f)] in
  let shown := Page.error (Page.final (handleSubmit st)) in
  (forall response, fetch fd = inr response -> Page.ok response = false ->
     shown = Some "解析に失敗しました。"%string) /\
  (forall message, fetch fd = inl (Page.ThrownError message) ->
     shown = Some message) /\
  (fetch fd = inl Page.ThrownOther ->
   shown = Some "不明なエラーが発生しました。"%string) /\
  (forall response message,
     fetch fd = inr response -> Page.ok response = true ->
     Page.json response = inl (Page.ThrownError message) ->
     shown = Some message) /\
  (forall response data,
     fetch fd = inr response -> Page.ok response = true ->
     Page.json response = inr data -> shown = None).
Proof.
  intros Hf fd shown. unfold shown.
  split; [|split; [|split; [|split]]].
  - intros response E Hok.
    now destruct (handleSubmit_response st f response Hf E)
      as [H _]; destruct (H Hok) as (_ & -> & _).
  - intros message E.
    destruct (handleSubmit_thrown st f (Page.ThrownError message) Hf)
      as (_ & -> & _); [|reflexivity].
    unfold Page.request. fold fd. now rewrite E.
  - intro E.
    destruct (handleSubmit_thrown st f Page.ThrownOther Hf)
      as (_ & -> & _); [|reflexivity].
    unfold Page.request. fold fd. now rewrite E.
  - intros response message E Hok Hjson.
    destruct (handleSubmit_thrown st f (Page.ThrownError message) Hf)
      as (_ & -> & _); [|reflexivity].
    unfold Page.request. fold fd. now rewrite E, Hok.
  - intros response data E Hok Hjson.
    now destruct (handleSubmit_response st f response Hf E)
      as [_ H]; destruct (H Hok data Hjson) as (_ & -> & _).
Qed.


End PageRun.


Lemma submit_error_messages_witness :
  let fetch := fun _ : FormData =>
    inr {| Page.ok := false; Page.json := inr (Page.JsonError "x") |} in
  Page.error
    (Page.final
       (Page.handleSubmit fetch (Page.setFile (Some [1%Z]) Page.initial)))
  = Some "解析に失敗しました。"%string.
Proof.
  intro fetch.
  destruct (submit_error_messages fetch
              (Page.setFile (Some [1%Z]) Page.initial) [1%Z] eq_refl)
    as (H & _).
  apply (H {| Page.ok := false; Page.json := inr (Page.JsonError "x") |});
    reflexivity.
Defined.


(** * Further properties of the handler *)

Section HandlerEdges.

Variable World : Type.
Variable sharp : bytes -> result (bytes * OutputInfo).
Variable kmeans :
  World -> list pixel -> nat -> option Z -> result (list centroid).

Local Abbreviation tryBlock := (tryBlock World sharp kmeans).
Local Abbreviation handle := (handle World sharp kmeans).
Local Abbreviation POST := (POST World sharp kmeans).
Local Abbreviation Clustered := (Clustered World sharp kmeans).

(** X17: When the clustering returns fewer centroids than [k >= 2], reading
    the missing one throws: the request ends in the 500 response and nothing
    is scored. *)
Theorem short_clustering_is_processing_failure
    (k : nat) (w : World) (request : Request)
    (dominantRgbs : list centroid) :
  (2 <= k)%nat -> Clustered k w request dominantRgbs ->
  (length dominantRgbs < k)%nat ->
  handle k w request
  = (ProcessingFailure, Some (TypeError "undefined is not iterable")).
Proof.
  intros Hk Hc Hlen. unfold handle.
  rewrite (tryBlock_clustered World sharp kmeans k w request _ Hc).
  now rewrite (scoreCentroids_short k dominantRgbs Hk Hlen).
Qed.

Lemma handle_responses (k : nat) (w : World) (request : Request) :
  handle k w request = (MissingInput, None) \/
  (exists e, handle k w request = (ProcessingFailure, Some e)) \/
  (exists score colors,
     handle k w request = (ScoreResult (Some score) colors, None)).
Proof.
  unfold handle.
  destruct (tryBlock k w request) as [e|response] eqn:E.
  - right. left. now exists e.
  - apply tryBlock_inv in E as [[-> _]|(cs & _ & E)]; [now left|].
    apply scoreCentroids_inv in E as (s & ->).
    right. right. now exists s, (map roundColor cs).
Qed.

Lemma handle_missing_inv (k : nat) (w : World) (request : Request) :
  fst (handle k w request) = MissingInput ->
  exists fd, formData request = inr fd /\
             falsy (get fd "file"%string) = true.
Proof.
  unfold handle.
  destruct (tryBlock k w request) as [e|response] eqn:E; cbn [fst];
    [discriminate|].
  intros ->. apply tryBlock_inv in E as [[_ H]|(cs & _ & E)]; [exact H|].
  apply scoreCentroids_inv in E as (s & [=]).
Qed.

(** X18: [console.error] is called exactly when the response is the 500,
    with the error that the [try] block threw; the 400 and the 200 log
    nothing. *)
Theorem error_logged_exactly_on_failure
    (k : nat) (w : World) (request : Request) :
  (snd (handle k w request) <> None <->
   fst (handle k w request) = ProcessingFailure) /\
  (forall e, snd (handle k w request) = Some e <->
             tryBlock k w request = inl e).
Proof.
  split.
  - destruct (handle_responses k w request)
      as [E|[(e & E)|(s & colors & E)]]; rewrite E; cbn [fst snd];
      split; try discriminate; try reflexivity; intro H;
      try (now exfalso; apply H).
  - intro e. unfold handle.
    destruct (tryBlock k w request) as [e'|response]; cbn [snd]; split;
      try discriminate; now intros [= ->].
Qed.

(** X19: What the page does with the route behind [fetch]: it sends the
    chosen file, which the route never answers with the 400; it shows the
    score and the colours of a 200, and for a 500 it shows its own fixed
    message, never the text of the route's error. *)
Theorem page_against_route
    (w : World) (st : Page.State) (f : Page.File) :
  Page.file st = Some f ->
  let request := {| formData := inr [("file"%string, EntryFile f)] |} in
  let fetch := fun fd : FormData =>
    inr (fetched (fst (POST w {| formData := inr fd |}))) in
  let final := Page.final (Page.handleSubmit fetch st) in
  fst (POST w request) <> MissingInput /\
  (forall score colors,
     fst (POST w request) = ScoreResult score colors ->
     Page.result final = Some (Page.JsonScore score colors) /\
     Page.error final = None) /\
  (fst (POST w request) = ProcessingFailure ->
   Page.result final = None /\
   Page.error final = Some "解析に失敗しました。"%string) /\
  Page.isLoading final = false /\
  ((Page.resultShown final = true /\ Page.errorShown final = false) \/
   (Page.resultShown final = false /\ Page.errorShown final = true)).
Proof.
  intros Hf request fetch final.
  assert (Hnot : fst (POST w request) <> MissingInput).
  { intro H. apply handle_missing_inv in H as (fd & [= <-] & H).
    discriminate H. }
  split; [exact Hnot|].
  destruct (handleSubmit_response fetch st f
              (fetched (fst (POST w request))) Hf eq_refl)
    as (Hbad & Hgood).
  fold final in Hbad, Hgood. revert Hnot Hbad Hgood. unfold POST.
  destruct (handle_responses 3 w request)
    as [E|[(e & E)|(s & colors & E)]]; rewrite !E; cbn [fst fetched];
    intros Hnot Hbad Hgood; [contradiction| |].
  - destruct (Hbad eq_refl) as (H1 & H2 & H3).
    unfold Page.resultShown, Page.errorShown. rewrite H1, H2, H3.
    split; [discriminate|]. split; [now intros _|].
    split; [reflexivity|]. now right.
  - destruct (Hgood eq_refl (Page.JsonScore (Some s) colors) eq_refl)
      as (H1 & H2 & H3).
    unfold Page.resultShown, Page.errorShown. rewrite H1, H2, H3.
    split; [now intros sc cols [= <- <-]|]. split; [discriminate|].
    split; [reflexivity|]. now left.
Qed.

End HandlerEdges.

Lemma short_clustering_is_processing_failure_witness :
  handle Double.World Double.sharp
    (fun _ pixels _ _ => inr (map Double.centroidOf (firstn 2 pixels)))
    3 0%nat (Double.upload Double.redCyanRed)
  = (ProcessingFailure, Some (TypeError "undefined is not iterable")).
Proof.
  apply (short_clustering_is_processing_failure Double.World Double.sharp
           (fun _ pixels _ _ => inr (map Double.centroidOf (firstn 2 pixels)))
           3 0%nat (Double.upload Double.redCyanRed)
           (map Double.centroidOf
              (firstn 2 (extractPixels Double.redCyanRed 4)))).
  - apply Nat.leb_le. reflexivity.
  - exists Double.redCyanRed,
      {| width := length Double.redCyanRed / 4; height := 1;
         channels := 4 |}.
    split; [|reflexivity].
    exists [("file"%string, EntryFile Double.redCyanRed)],
      Double.redCyanRed.
    repeat split.
  - apply Nat.ltb_lt. reflexivity.
Defined.

Lemma error_logged_exactly_on_failure_witness :
  snd (handle Double.World Double.sharp Double.kmeans 3 0%nat
         (Double.upload []))
  <> None.
Proof.
  apply (error_logged_exactly_on_failure Double.World Double.sharp
           Double.kmeans 3 0%nat (Double.upload [])).
  reflexivity.
Defined.

Lemma page_against_route_witness :
  Page.result
    (Page.final
       (Page.handleSubmit
          (fun fd => inr (fetched (fst (POST Double.World Double.sharp
                                          Double.kmeans 0%nat
                                          {| formData := inr fd |}))))
          (Page.setFile (Some Double.redCyanRed) Page.initial)))
  = Some (Page.JsonScore (Some 66.67)
            [[255; 0; 0]; [0; 255; 255]; [255; 0; 0]]%Z).
Proof.
  destruct (page_against_route Double.World Double.sharp Double.kmeans
              0%nat (Page.setFile (Some Double.redCyanRed) Page.initial)
              Double.redCyanRed eq_refl) as (_ & H & _).
  apply H. reflexivity.
Defined.
